(** * rnexus: link-tree reconstruction, rendering, reconciliation and the
      routing-map parser (package [routing]).

    Shallow embedding of [internal/routing/links.go] and of the routing-map
    loader, with the properties of the topology engine proved over it.

    Conventions of the embedding.
    - A Go [string] is a sequence of bytes: [string] of 8-bit [ascii].
      Comparison with [<] is byte-wise lexicographic, i.e. [String.ltb].
    - A Go [int] is modelled as [Z]; the only arithmetic on it is [level+1]
      with [level < entry.Hops], which never leaves the range of [int].
    - A Go [map] is a [gmap]; a [range] over a map visits every entry exactly
      once in an order chosen by the runtime.  The choice is an explicit
      parameter: a [RangeOrder] gives, for the n-th [range] statement executed,
      the order in which the entries are visited.
    - The recursion of [sortChildren] is not bounded by the code; it is
      embedded with a recursion budget ([fuel]) and [None] means the budget
      was exhausted. *)

From Stdlib Require Import ZArith Ascii.
From stdpp Require Import gmap strings list sorting pretty.

Local Open Scope Z_scope.

(** ** The parts of Go's [strings] package used by the code *)

Module GoStrings.

(** [s[n:]] *)
Fixpoint slice_from (n : nat) (s : string) : string :=
  match n, s with
  | O, _ => s
  | S n', String _ s' => slice_from n' s'
  | S _, EmptyString => EmptyString
  end.

(** [s[:n]] *)
Definition slice_to (n : nat) (s : string) : string := String.substring 0 n s.

(** [strings.HasPrefix(s, prefix)] *)
Definition HasPrefix (s prefix : string) : bool := String.prefix prefix s.

Fixpoint index_from (i : Z) (s substr : string) : Z :=
  if String.prefix substr s then i
  else match s with
       | EmptyString => -1
       | String _ s' => index_from (i + 1) s' substr
       end.

(** [strings.Index(s, substr)]: byte offset of the first occurrence, or -1 *)
Definition Index (s substr : string) : Z := index_from 0 s substr.

(** [strings.Contains(s, substr)] *)
Definition Contains (s substr : string) : bool := 0 <=? Index s substr.

(** [strings.SplitN(s, sep, 2)] for a non-empty separator *)
Definition SplitN2 (s sep : string) : list string :=
  let i := Index s sep in
  if i <? 0 then [s]
  else [slice_to (Z.to_nat i) s;
        slice_from (Z.to_nat i + String.length sep) s].

(** [strings.ReplaceAll(s, old, "")] for a one-byte [old] *)
Fixpoint RemoveAll (s : string) (old : ascii) : string :=
  match s with
  | EmptyString => EmptyString
  | String c s' =>
      if Ascii.eqb c old then RemoveAll s' old else String c (RemoveAll s' old)
  end.

(** ASCII instances of the Unicode-aware library functions; they agree with
    Go's on strings made of ASCII bytes. *)
Definition ascii_lower (c : ascii) : ascii :=
  let n := N_of_ascii c in
  if ((65 <=? n) && (n <=? 90))%N then ascii_of_N (n + 32) else c.

Fixpoint ToLower_ascii (s : string) : string :=
  match s with
  | EmptyString => EmptyString
  | String c s' => String (ascii_lower c) (ToLower_ascii s')
  end.

Fixpoint trim_left (s : string) : string :=
  match s with
  | String c s' => if Ascii.is_space c then trim_left s' else s
  | EmptyString => EmptyString
  end.

Definition TrimSpace_ascii (s : string) : string :=
  String.rev (trim_left (String.rev (trim_left s))).

Definition Fields_ascii (s : string) : list string := String.words s.

End GoStrings.

Import GoStrings.

(** ** links.go: data *)

Record LinkEntry := mkLinkEntry {
  Server : string;
  Hub : string;
  Hops : Z;
  Description : string
}.

Record LinkTree := mkLinkTree {
  entries : gmap string LinkEntry;
  order : list string
}.

Definition NewLinkTree : LinkTree :=
  {| entries := ∅; order := [] |}.

Definition Add (t : LinkTree) (server hub : string) (hops : Z)
    (description : string) : LinkTree :=
  {| entries := <[server := mkLinkEntry server hub hops description]> (entries t);
     order := order t ++ [server] |}.

(** A LINKS reply as handed to [Add], and the tree collected from a sequence
    of replies. *)
Record LinkReply := mkReply {
  r_server : string; r_hub : string; r_hops : Z; r_description : string
}.

Definition AddReply (t : LinkTree) (r : LinkReply) : LinkTree :=
  Add t (r_server r) (r_hub r) (r_hops r) (r_description r).

Definition collect (rs : list LinkReply) : LinkTree :=
  foldl AddReply NewLinkTree rs.

(** ** Iteration over a Go map *)

Definition RangeOrder : Type :=
  nat → list (string * LinkEntry) → list (string * LinkEntry).

Definition fair (ρ : RangeOrder) : Prop := ∀ n l, ρ n l ≡ₚ l.

Definition rangeMap (ρ : RangeOrder) (k : nat) (m : gmap string LinkEntry)
    : list (string * LinkEntry) :=
  ρ k (map_to_list m).

(** The order in which [map_to_list] happens to enumerate. *)
Definition inOrder : RangeOrder := λ _ l, l.
(** The opposite order. *)
Definition reversed : RangeOrder := λ _ l, reverse l.

(** Outcome of a call that may dereference a nil entry or recurse without
    bound. *)
Inductive outcome (A : Type) : Type :=
| Returns (a : A)
| Panics
| OutOfFuel.
Arguments Returns {A} a.
Arguments Panics {A}.
Arguments OutOfFuel {A}.

(** ** links.go: operations *)

(** Short name: the text before the first dot, when the dot is not the first
    byte. *)
Definition shortName (server : string) : string :=
  let idx := Index server "." in
  if 0 <? idx then slice_to (Z.to_nat idx) server else server.

Definition GetLinkedServers (ρ : RangeOrder) (k : nat) (t : LinkTree)
    : list string :=
  foldl (λ servers '(server, _), servers ++ [shortName server])
        [] (rangeMap ρ k (entries t)).

(** The [for ... range] loop of [Build] that looks for the root; [root] is the
    value of the variable when no entry with [Hops == 0] is met. *)
Fixpoint findRoot (it : list (string * LinkEntry)) (root : string) : string :=
  match it with
  | [] => root
  | (server, entry) :: it' =>
      if Hops entry =? 0 then server else findRoot it' root
  end.

(** [sort.Slice(children, less)], as insertion by the [less] function.  The
    library sort is not stable; the code reads only the [Server] field of the
    sorted entries, the field [less] compares, so every correct sort gives
    the same sequence of names ([sortSlice_order_irrelevant] below). *)
Fixpoint insertBy {A} (less : A → A → bool) (x : A) (l : list A) : list A :=
  match l with
  | [] => [x]
  | y :: l' => if less x y then x :: l else y :: insertBy less x l'
  end.

Definition sortSlice {A} (less : A → A → bool) (l : list A) : list A :=
  foldr (insertBy less) [] l.

Definition isChildOf (parent : string) (entry : LinkEntry) : bool :=
  bool_decide (Hub entry = parent) && negb (bool_decide (Server entry = parent)).

Definition lessServer (a b : LinkEntry) : bool :=
  String.ltb (Server a) (Server b).

(** [sortChildren(parent, &result)]; the state is the slice [*result] and the
    number of [range] statements executed so far. *)
Fixpoint sortChildren (fuel : nat) (ρ : RangeOrder) (t : LinkTree)
    (parent : string) (st : list string * nat) : option (list string * nat) :=
  match fuel with
  | O => None
  | S fuel' =>
      let children :=
        foldl (λ children '(_, entry),
                 if isChildOf parent entry then children ++ [entry] else children)
              [] (rangeMap ρ (snd st) (entries t)) in
      let children := sortSlice lessServer children in
      foldl (λ acc child,
               match acc with
               | None => None
               | Some (result, k) =>
                   sortChildren fuel' ρ t (Server child)
                                (result ++ [Server child], k)
               end)
            (Some (fst st, S (snd st))) children
  end.

Definition sortHierarchically (fuel : nat) (ρ : RangeOrder) (t : LinkTree)
    (root : string) (k : nat) : option (list string * nat) :=
  sortChildren fuel ρ t root ([root], k).

Fixpoint hasMoreAtLevel (t : LinkTree) (level : Z) (remaining : list string)
    : bool :=
  match remaining with
  | [] => false
  | server :: rest =>
      match entries t !! server with
      | Some entry =>
          if Hops entry =? level then true else hasMoreAtLevel t level rest
      | None => hasMoreAtLevel t level rest
      end
  end.

(** [fmt.Sprintf("%s (%d) %s", ...)] *)
Definition sprintfNode (entry : LinkEntry) : string :=
  Server entry +:+ " (" +:+ pretty (Hops entry) +:+ ") " +:+ Description entry.

(** The [for level := 1; level < entry.Hops; level++] loop writing to the
    string builder; [n] bounds the number of iterations. *)
Fixpoint prefixLoop (t : LinkTree) (hops : Z) (remaining : list string)
    (n : nat) (level : Z) (prefix : string) : string :=
  match n with
  | O => prefix
  | S n' =>
      if level <? hops then
        prefixLoop t hops remaining n' (level + 1)
          (prefix +:+ (if hasMoreAtLevel t (level + 1) remaining
                       then "   |" else "    "))
      else prefix
  end.

Definition formatLine (t : LinkTree) (entry : LinkEntry)
    (remaining : list string) : string :=
  if Hops entry =? 0 then sprintfNode entry
  else
    let prefix :=
      prefixLoop t (Hops entry) remaining (Z.to_nat (Hops entry)) 1 "" in
    (prefix +:+ "|_ ") +:+ sprintfNode entry.

(** The loop [for i, server := range ordered] of [Build]; [ordered[i+1:]] is
    the rest of the list. *)
Fixpoint renderLines (t : LinkTree) (ordered : list string)
    (lines : list string) : outcome (list string) :=
  match ordered with
  | [] => Returns lines
  | server :: remaining =>
      match entries t !! server with
      | None => Panics
      | Some entry =>
          renderLines t remaining (lines ++ [formatLine t entry remaining])
      end
  end.

Definition noRootLine : string := "Error: no root server found".

Definition Build (fuel : nat) (ρ : RangeOrder) (k : nat) (t : LinkTree)
    : outcome (list string) :=
  if (size (entries t) =? 0)%nat then Returns []
  else
    let root := findRoot (rangeMap ρ k (entries t)) "" in
    if String.eqb root "" then Returns [noRootLine]
    else
      match sortHierarchically fuel ρ t root (S k) with
      | None => OutOfFuel
      | Some (ordered, _) => renderLines t ordered []
      end.

(** ** The routing map: data and parser *)

Record Map := mkMap {
  Raw : list string;
  Servers : gmap string (list string);
  ServerList : list string
}.

(** [skipPatterns]: the regular expression
    [(?i)^Tier|^Hub:|^Client:|^Special:|^LOA|===|DALnet Routing|^Temporary|^---|^\s*$]
    matched against a line.  The flag [(?i)] covers every alternative; the
    patterns below are written in lower case. *)

(** [pat] (lower case) matches a prefix of [s], ASCII letters of [s] folded. *)
Fixpoint prefixFold (pat s : string) : bool :=
  match pat, s with
  | EmptyString, _ => true
  | String p pat', String c s' =>
      Ascii.eqb p (ascii_lower c) && prefixFold pat' s'
  | String _ _, EmptyString => false
  end.

Fixpoint containsFold (pat s : string) : bool :=
  prefixFold pat s ||
  match s with
  | EmptyString => false
  | String _ s' => containsFold pat s'
  end.

(** The class [\s] of the regular expression: tab, newline, form feed,
    carriage return, space. *)
Definition reSpace (c : ascii) : bool :=
  match c with
  | "009" | "010" | "012" | "013" | " " => true
  | _ => false
  end%char.

Fixpoint allSpace (s : string) : bool :=
  match s with
  | EmptyString => true
  | String c s' => reSpace c && allSpace s'
  end.

(** Under [(?i)] the letter [s] also matches U+017F (bytes C5 BF), the only
    non-ASCII character folding to a letter of the patterns. *)
Definition specialPrefix (s : string) : bool :=
  prefixFold "special:" s ||
  match s with
  | String "197" (String "191" s') => prefixFold "pecial:" s'
  | _ => false
  end.

Definition skipPatterns (line : string) : bool :=
  prefixFold "tier" line || prefixFold "hub:" line ||
  prefixFold "client:" line || specialPrefix line ||
  prefixFold "loa" line || containsFold "===" line ||
  containsFold "dalnet routing" line || prefixFold "temporary" line ||
  prefixFold "---" line || allSpace line.

(** A token is kept as an uplink unless it starts with "(" or "=". *)
Definition isHub (h : string) : bool :=
  negb (HasPrefix h "(") && negb (HasPrefix h "=").

(** What the file system answers when [LoadMap] opens [rmap.txt]: the file
    does not exist, [os.Open] fails otherwise, or the file opens and the
    scanner delivers [texts], one per line, before it stops with or without
    an error ([scanErr]). *)
Inductive rmapFile : Type :=
| NotExist
| OpenFails
| Opens (texts : list string) (scanErr : bool).

Section Parser.
(** [strings.TrimSpace] and [strings.Fields] of the Go library. *)
Variable TrimSpace : string → string.
Variable Fields : string → list string.

(** The part of the loop body after the raw line is stored: [None] where
    the code says [continue] or falls through without an entry, otherwise
    the server and its hubs. *)
Definition parseLine (line : string) : option (string * list string) :=
  if skipPatterns line then None
  else if Contains line ":" then
    let parts := SplitN2 line ":" in
    let server := TrimSpace (nth 0 parts "") in
    if String.eqb server "" then None
    else
      let hubs :=
        if (1 <? length parts)%nat then
          let hubPart := TrimSpace (nth 1 parts "") in
          foldl (λ hubs h, if isHub h then hubs ++ [h] else hubs)
                [] (Fields hubPart)
        else [] in
      Some (server, hubs)
  else None.

(** One iteration of [for scanner.Scan()] on the scanned text [text]. *)
Definition scanStep (m : Map) (text : string) : Map :=
  let line := RemoveAll text "013" in
  let raw := Raw m ++ [line] in
  match parseLine line with
  | None => mkMap raw (Servers m) (ServerList m)
  | Some (server, hubs) =>
      mkMap raw (<[server := hubs]> (Servers m)) (ServerList m ++ [server])
  end.

(** The [for scanner.Scan()] loop on the texts delivered by the scanner. *)
Definition scanLoop (texts : list string) : Map :=
  foldl scanStep (mkMap [] ∅ []) texts.

(** [LoadMap]: the map (or nil) and whether the error returned is non-nil. *)
Definition LoadMap (file : rmapFile) : option Map * bool :=
  match file with
  | NotExist => (Some (mkMap [] ∅ []), false)
  | OpenFails => (None, true)
  | Opens texts scanErr => (Some (scanLoop texts), scanErr)
  end.
End Parser.

(** ** Reconciliation *)

Section Reconciler.
(** [strings.ToLower] of the Go library. *)
Variable ToLower : string → string.

Definition CompareToMap (ρ : RangeOrder) (k : nat) (tree : LinkTree)
    (rmap : Map) : nat * nat * list string :=
  let linked := GetLinkedServers ρ k tree in
  let linkedSet : gmap string bool :=
    foldl (λ set s, <[ToLower s := true]> set) ∅ linked in
  let missing :=
    foldl (λ missing server,
             let short := shortName server in
             if negb (default false (linkedSet !! ToLower short))
             then missing ++ [short] else missing)
          [] (ServerList rmap) in
  (length (ServerList rmap), length linked, missing).
End Reconciler.

(** ** The routing map: lookups *)

(** Iteration order of a [range] over a map with values in [A]. *)
Definition RangeOrderOf (A : Type) : Type :=
  nat → list (string * A) → list (string * A).

Definition fairOf {A} (ρ : RangeOrderOf A) : Prop := ∀ n l, ρ n l ≡ₚ l.

Section Lookups.
(** [strings.ToLower] of the Go library. *)
Variable ToLower : string → string.

(** The [range] loop of [GetUplinks] with its [return]; a nil slice is the
    empty list. *)
Fixpoint firstWithPrefix (it : list (string * list string)) (server : string)
    : list string :=
  match it with
  | [] => []
  | (name, hubs) :: it' =>
      if HasPrefix (ToLower name) server then hubs
      else firstWithPrefix it' server
  end.

Definition GetUplinks (ρ : RangeOrderOf (list string)) (k : nat) (m : Map)
    (server : string) : list string :=
  match Servers m !! server with
  | Some hubs => hubs
  | None =>
      let server := ToLower server in
      firstWithPrefix (ρ k (map_to_list (Servers m))) server
  end.

Definition FindServer (m : Map) (prefix : string) : list string :=
  let prefix := ToLower prefix in
  foldl (λ matches name,
           if HasPrefix (ToLower name) prefix then matches ++ [name]
           else matches)
        [] (ServerList m).
End Lookups.

(** ** storage/files.go *)

(** [bufio.Scanner] with its default split function [ScanLines] and its
    default buffer limit, as a function of the bytes of the file. *)
Module GoBufio.

(** [MaxScanTokenSize]; the buffer has to hold a line together with its
    newline, so a line of that many bytes or more stops the scanner with
    [ErrTooLong]. *)
Definition MaxScanTokenSize : Z := 65536.

(** [dropCR]: one trailing carriage return is dropped. *)
Fixpoint dropCR (s : string) : string :=
  match s with
  | EmptyString => EmptyString
  | String c EmptyString => if Ascii.eqb c "013" then EmptyString else s
  | String c s' => String c (dropCR s')
  end.

(** The tokens delivered by successive [Scan] calls on [data], and whether
    the scanner stopped on [ErrTooLong]; [cur] is the pending line and [n]
    its length. *)
Fixpoint scanFrom (data : string) (cur : string) (n : Z) : list string * bool :=
  match data with
  | EmptyString => if n =? 0 then ([], false) else ([dropCR cur], false)
  | String c rest =>
      if Ascii.eqb c "010" then
        let '(tokens, tooLong) := scanFrom rest "" 0 in
        (dropCR cur :: tokens, tooLong)
      else if MaxScanTokenSize - 1 <=? n then ([], true)
      else scanFrom rest (cur +:+ String c "") (n + 1)
  end.

Definition scan (data : string) : list string * bool := scanFrom data "" 0.

End GoBufio.

(** [rmap.txt] holding [content] and read without an I/O error: what the
    scanner of [LoadMap] delivers to its loop. *)
Definition rmapHolding (content : string) : rmapFile :=
  let '(texts, tooLong) := GoBufio.scan content in
  Opens texts tooLong.

Module Storage.

Definition maxEntries : nat := 500.

(** What the file system holds under a path. *)
Inductive fileState : Type :=
| Missing
| Unreadable
| Holds (content : string).

Inductive ioError : Type :=
| ErrNotExist
| ErrOther
| ErrTooLong.

(** [readLines]: the lines (nil is the empty list) and the error. *)
Definition readLines (file : fileState) : list string * option ioError :=
  match file with
  | Missing => ([], Some ErrNotExist)
  | Unreadable => ([], Some ErrOther)
  | Holds content =>
      let '(tokens, tooLong) := GoBufio.scan content in
      (foldl (λ lines line,
                if String.eqb line "" then lines else lines ++ [line])
             [] tokens,
       if tooLong then Some ErrTooLong else None)
  end.

(** [writeLines]: the content of the file after the call (none when
    [os.Create] fails, [created = false]) and whether an error is returned.
    Every [Fprintln] on the created file is taken to succeed. *)
Definition writeLines (created : bool) (lines : list string)
    : option string * bool :=
  if created then
    (Some (foldl (λ file line, file +:+ line +:+ String "010" "") "" lines),
     false)
  else (None, true).

(** [reverse]: a result slice of the same length filled from the back. *)
Definition reverse (s : list string) : list string :=
  fst (foldl (λ '(result, i) v, (<[(length s - 1 - i)%nat := v]> result, S i))
             (replicate (length s) "", 0%nat) s).




Definition SaveStats (created : bool) (stats : list string)
    : option string * bool :=
  let stats :=
    if (maxEntries <? length stats)%nat
    then drop (length stats - maxEntries) stats else stats in
  writeLines created stats.

Record MOTD := mkMOTD {
  Setter : string;
  Message : string
}.

Section Motd.
(** [strings.TrimSpace] of the Go library. *)
Variable TrimSpace : string → string.

(** [LoadMOTD]: the message of the day (nil is [None]) and the error. *)
Definition LoadMOTD (file : fileState) : option MOTD * option ioError :=
  match file with
  | Missing => (Some (mkMOTD "" ""), None)
  | Unreadable => (None, Some ErrOther)
  | Holds data =>
      let line := TrimSpace data in
      let parts := SplitN2 line "%%" in
      if negb (length parts =? 2)%nat then (Some (mkMOTD "" line), None)
      else (Some (mkMOTD (nth 0 parts "") (nth 1 parts "")), None)
  end.
End Motd.

(** [SaveMOTD]: the content [os.WriteFile] writes when it succeeds. *)
Definition SaveMOTD (written : bool) (motd : MOTD) : option string * bool :=
  if written then
    (Some (Setter motd +:+ "%%" +:+ Message motd +:+ String "010" ""), false)
  else (None, true).

Definition AddLog (logs : list string) (entry : string) : list string :=
  let logs := [entry] ++ logs in
  if (maxEntries <? length logs)%nat then take maxEntries logs else logs.

Definition AddStat (stats : list string) (entry : string) : list string :=
  let stats := stats ++ [entry] in
  if (maxEntries <? length stats)%nat then drop 1 stats else stats.

End Storage.

(** ** The IRC client: the LINKS query *)

Module GoStrconv.

Inductive numError : Type :=
| ErrSyntax
| ErrRange.

Definition isDigit (c : ascii) : bool :=
  ((48 <=? N_of_ascii c) && (N_of_ascii c <=? 57))%N.

Definition maxUint64 : Z := 2 ^ 64 - 1.

(** The digit loop of [ParseUint] in base 10 with 64 bits, [n] the value read
    so far: the first byte that is no digit is a syntax error, the first
    digit that takes the value beyond 64 bits a range error; whichever comes
    first ends the loop. *)
Fixpoint parseDigits (s : string) (n : Z) : Z * option numError :=
  match s with
  | EmptyString => (n, None)
  | String c s' =>
      if negb (isDigit c) then (0, Some ErrSyntax)
      else if maxUint64 / 10 + 1 <=? n then (maxUint64, Some ErrRange)
      else
        let n1 := n * 10 + Z.of_N (N_of_ascii c - 48) in
        if maxUint64 <? n1 then (maxUint64, Some ErrRange)
        else parseDigits s' n1
  end.

(** [strconv.ParseUint(s, 10, 0)] on a 64-bit platform *)
Definition ParseUint (s : string) : Z * option numError :=
  match s with
  | EmptyString => (0, Some ErrSyntax)
  | _ => parseDigits s 0
  end.

(** [strconv.ParseInt(s, 10, 0)] on a 64-bit platform *)
Definition ParseInt (s : string) : Z * option numError :=
  match s with
  | EmptyString => (0, Some ErrSyntax)
  | _ =>
      let '(neg, body) :=
        match s with
        | String "+" rest => (false, rest)
        | String "-" rest => (true, rest)
        | _ => (false, s)
        end in
      let '(un, err) := ParseUint body in
      match err with
      | Some ErrSyntax => (0, err)
      | _ =>
          let cutoff := 2 ^ 63 in
          if negb neg && (cutoff <=? un) then (cutoff - 1, Some ErrRange)
          else if neg && (cutoff <? un) then (- cutoff, Some ErrRange)
          else (if neg then - un else un, None)
      end
  end.

(** [strconv.Atoi] on a 64-bit platform: the value and whether the error is
    non-nil.  Its fast path for short strings gives the results of
    [ParseInt]. *)
Definition Atoi (s : string) : Z * bool :=
  let '(v, err) := ParseInt s in
  (v, match err with Some _ => true | None => false end).

End GoStrconv.

(** [strings.Join(elems, sep)] *)
Fixpoint Join (elems : list string) (sep : string) : string :=
  match elems with
  | [] => ""
  | [x] => x
  | x :: rest => x +:+ sep +:+ Join rest sep
  end.

Module Irc.

(** An incoming message: its source and its parameters. *)
Record Message := mkMessage {
  Source : string;
  Params : list string
}.

Record pendingCheck := mkPending {
  p_hostmask : string;
  p_message : string
}.

(** The data fields of [Client]; the connection, the configuration and the
    locks are not part of the state, the handlers run one at a time. *)
Record Client := mkClient {
  ready : bool;
  closed : bool;
  routingMap : Map;
  logs : list string;
  stats : list string;
  motd : Storage.MOTD;
  opers : gmap string bool;
  admins : gmap string bool;
  pendingWhois : gmap string pendingCheck;
  linksTree : option LinkTree;
  linksTarget : string;
  linksSummary : bool
}.

(** What a handler does to the outside: messages on the connection and files
    written under the data directory. *)
Inductive action : Type :=
| Privmsg (target text : string)
| SendRaw (line : string)
| WriteStats (content : string).

(** What a handler reads from the outside: the formatted current time, the
    routing-map file, and whether the stats file can be created. *)
Record World := mkWorld {
  now : string;
  rmapTxt : rmapFile;
  statsCreated : bool
}.

Definition setLinks (c : Client) (tree : option LinkTree) (target : string)
    (summary : bool) : Client :=
  mkClient (ready c) (closed c) (routingMap c) (logs c) (stats c) (motd c)
           (opers c) (admins c) (pendingWhois c) tree target summary.

Definition setStats (c : Client) (stats' : list string) : Client :=
  mkClient (ready c) (closed c) (routingMap c) (logs c) stats' (motd c)
           (opers c) (admins c) (pendingWhois c)
           (linksTree c) (linksTarget c) (linksSummary c).

Definition setRoutingMap (c : Client) (rmap : Map) : Client :=
  mkClient (ready c) (closed c) rmap (logs c) (stats c) (motd c)
           (opers c) (admins c) (pendingWhois c)
           (linksTree c) (linksTarget c) (linksSummary c).

(** [logCommand]; a failure of [SaveStats] is only logged. *)
Definition logCommand (w : World) (c : Client) (hostmask command : string)
    : Client * list action :=
  let entry := now w +:+ ": " +:+ hostmask +:+ " -> " +:+ command in
  let c := setStats c (Storage.AddStat (stats c) entry) in
  match Storage.SaveStats (statsCreated w) (stats c) with
  | (Some content, _) => (c, [WriteStats content])
  | (None, _) => (c, [])
  end.

Section Handlers.
Variable TrimSpace : string → string.
Variable Fields : string → list string.
Variable ToLower : string → string.

Definition reloadMap (w : World) (c : Client) : Client :=
  match LoadMap TrimSpace Fields (rmapTxt w) with
  | (Some rmap, false) => setRoutingMap c rmap
  | _ => c
  end.

Definition cmdLinks (w : World) (c : Client) (nick hostmask message : string)
    (summary : bool) : Client * list action :=
  let '(c, logged) := logCommand w c hostmask message in
  let c := reloadMap w c in
  let c := setLinks c (Some NewLinkTree) nick summary in
  (c, logged ++ [SendRaw "LINKS"]).

Definition onLinks (c : Client) (e : Message) : Client :=
  if (length (Params e) <? 4)%nat then c
  else
    let server := nth 1 (Params e) "" in
    let hub := nth 2 (Params e) "" in
    let info := nth 3 (Params e) "" in
    let parts := SplitN2 info " " in
    let hops := fst (GoStrconv.Atoi (nth 0 parts "")) in
    let description := if (1 <? length parts)%nat then nth 1 parts "" else "" in
    match linksTree c with
    | Some tree =>
        setLinks c (Some (Add tree server hub hops description))
                 (linksTarget c) (linksSummary c)
    | None => c
    end.

(** [onLinksEnd]; [kb] and [kc] number the [range] statements of [Build] and
    of [CompareToMap]. *)
Definition onLinksEnd (fuel : nat) (ρ : RangeOrder) (kb kc : nat)
    (c : Client) (e : Message) : outcome (Client * list action) :=
  let tree := linksTree c in
  let target := linksTarget c in
  let summary := linksSummary c in
  let c := setLinks c None "" false in
  match tree with
  | None => Returns (c, [])
  | Some tree =>
      if String.eqb target "" then Returns (c, [])
      else
        let connectedServer :=
          if (0 <? length (Params e))%nat then Source e else "" in
        let report :=
          let '(total, linked, missing) :=
            CompareToMap ToLower ρ kc tree (routingMap c) in
          [Privmsg target ("Total servers: " +:+ pretty total);
           Privmsg target ("Linked servers: " +:+ pretty linked)]
          ++ (if (0 <? length missing)%nat
              then [Privmsg target
                      ("Missing servers: " +:+ Join missing ", " +:+ " ("
                       +:+ pretty (length missing) +:+ ")")]
              else [Privmsg target "No servers are currently missing"])
          ++ [Privmsg target " ";
              Privmsg target ("[MOTD] " +:+ Storage.Message (motd c));
              Privmsg target ("MOTD set by " +:+ Storage.Setter (motd c))] in
        if summary then Returns (c, report)
        else
          match Build fuel ρ kb tree with
          | Returns lines =>
              Returns
                (c, (Privmsg target <$> lines)
                    ++ [Privmsg target "End of server list.";
                        Privmsg target
                          ("Note - the map displayed above is the network as viewed from my server, "
                           +:+ connectedServer)]
                    ++ report)
          | Panics => Panics
          | OutOfFuel => OutOfFuel
          end
  end.
End Handlers.

End Irc.

(** ** Reference notions used to state the properties *)

(** Every key of the map is the [Server] field of its entry: the only writer
    of [entries] is [Add]. *)
Definition keyed (m : gmap string LinkEntry) : Prop :=
  map_Forall (λ s e, Server e = s) m.

(** [c] is a child of [p]: a held record whose hub is [p] and whose own name
    differs from [p]. *)
Definition childOf (m : gmap string LinkEntry) (p c : string) : Prop :=
  ∃ e, m !! c = Some e ∧ Hub e = p ∧ c ≠ p.

(** Names of the children of [parent], in ascending order; no iteration order
    is involved. *)
Definition kids (m : gmap string LinkEntry) (parent : string) : list string :=
  sortSlice String.ltb
    (Server <$> filter (λ e, isChildOf parent e) (map_to_list m).*2).

(** The names appended below [parent] by a depth-first walk of at most [fuel]
    levels. *)
Fixpoint walk (fuel : nat) (m : gmap string LinkEntry) (parent : string)
    : option (list string) :=
  match fuel with
  | O => None
  | S fuel' =>
      foldl (λ acc c,
               match acc with
               | None => None
               | Some r =>
                   match walk fuel' m c with
                   | None => None
                   | Some sub => Some (r ++ c :: sub)
                   end
               end)
            (Some []) (kids m parent)
  end.

(** Pre-order listing of the subtree of [p]: [p], then the listing of each of
    its children, the children taken in strictly ascending byte-wise order. *)
#[warnings="-register-all"]
Inductive preorder (m : gmap string LinkEntry) : string → list string → Prop :=
| preorder_node p cs subs :
    StronglySorted (λ a b, String.ltb a b = true) cs →
    (∀ c, c ∈ cs ↔ childOf m p c) →
    Forall2 (preorder m) cs subs →
    preorder m p (p :: concat subs).

(** [upto m s a]: following hub pointers upwards from [s] reaches [a]
    ([a] is [s] or an ancestor of [s]). *)
Inductive upto (m : gmap string LinkEntry) : string → string → Prop :=
| upto_refl s : upto m s s
| upto_step s p a : childOf m p s → upto m p a → upto m s a.

(** The hub pointers form a tree rooted at [root]: the hub of every other
    record is a held record strictly closer to the root ([depth] measures the
    distance), and the root hangs off itself or off no held record. *)
Definition hubTree (depth : string → nat) (m : gmap string LinkEntry)
    (root : string) : Prop :=
  map_Forall (λ s e,
    (s = root → Hub e = root ∨ ¬ is_Some (m !! Hub e)) ∧
    (s ≠ root → is_Some (m !! Hub e) ∧ (depth (Hub e) < depth s)%nat)) m.

(** [root] is the one record with [Hops == 0]. *)
Definition onlyRoot (m : gmap string LinkEntry) (root : string) : Prop :=
  is_Some (m !! root) ∧
  map_Forall (λ s e, Hops e = 0 ↔ s = root) m.

(** At most one record has [Hops == 0]. *)
Definition atMostOneRoot (m : gmap string LinkEntry) : Prop :=
  map_Forall (λ s1 e1,
    map_Forall (λ s2 e2, Hops e1 = 0 → Hops e2 = 0 → s1 = s2) m) m.

(** The renderer as the specification words it.  A continuation bar is due
    at [level] when some entry still to be rendered has [Hops] equal to
    [level + 1]. *)
Definition laterAt (t : LinkTree) (level : Z) (remaining : list string) : Prop :=
  Exists (λ server, ∃ e, entries t !! server = Some e ∧ Hops e = level) remaining.

Definition segment (bar : bool) : string := if bar then "   |" else "    ".

Definition lineSpec (bar : Z → bool) (entry : LinkEntry) : string :=
  if decide (Hops entry = 0) then
    Server entry +:+ " (" +:+ pretty (Hops entry) +:+ ") " +:+ Description entry
  else
    foldr String.app
      ("|_ " +:+ Server entry +:+ " (" +:+ pretty (Hops entry) +:+ ") "
             +:+ Description entry)
      ((λ level, segment (bar level)) <$> seqZ 1 (Hops entry - 1)).

(** [lines] renders [ordered] level by level: line [i] is the line of the
    specification for the [i]-th node, the bars decided on the nodes after
    it. *)
Definition rendersByLevels (t : LinkTree) (ordered lines : list string) : Prop :=
  length lines = length ordered ∧
  ∀ i server, ordered !! i = Some server →
    ∃ entry bar,
      entries t !! server = Some entry ∧
      (∀ level, bar level = true ↔ laterAt t (level + 1) (drop (S i) ordered)) ∧
      lines !! i = Some (lineSpec bar entry).

(** The text of a name up to and excluding its first dot; the whole name when
    it has none. *)
Fixpoint beforeDot (s : string) : string :=
  match s with
  | EmptyString => EmptyString
  | String c s' => if Ascii.eqb c "." then EmptyString else String c (beforeDot s')
  end.

(** What the tree builder is expected to deliver for the snapshot collected
    from [rs] with root [root]: one sequence [ordered], returned by
    [sortHierarchically] and rendered by [Build] for every iteration order
    once the recursion budget is large enough, which begins with the root,
    holds the server name of every record exactly once, and is the pre-order
    with ascending children. *)
Definition ordersTree (rs : list LinkReply) (root : string) : Prop :=
  ∃ (ordered : list string) (n : nat),
    head ordered = Some root ∧
    ordered ≡ₚ Server <$> (map_to_list (entries (collect rs))).*2 ∧
    preorder (entries (collect rs)) root ordered ∧
    ∀ fuel ρ k, fair ρ → (n ≤ fuel)%nat →
      (∃ k', sortHierarchically fuel ρ (collect rs) root k = Some (ordered, k')) ∧
      ∃ lines, Build fuel ρ k (collect rs) = Returns lines ∧
               renderLines (collect rs) ordered [] = Returns lines ∧
               length lines = length ordered.

(** The byte [c] occurs in [s]. *)
Fixpoint hasByte (c : ascii) (s : string) : bool :=
  match s with
  | EmptyString => false
  | String x s' => Ascii.eqb x c || hasByte c s'
  end.

(** No held record has [Hops == 0]. *)
Definition rootless (m : gmap string LinkEntry) : Prop :=
  map_Forall (λ _ e, Hops e ≠ 0) m.

(** The catalog names that are missing from the held names [names]: the
    short catalog names whose lower-cased form is the lower-cased short form
    of no held name, in catalog order. *)
Definition missingOf (ToLower : string → string) (names catalog : list string)
    : list string :=
  filter (λ short, ToLower short ∉ ToLower <$> (shortName <$> names))
         (shortName <$> catalog).

(** The server entries of a document, in line order: for every scanned text
    that yields an entry, the server name and its uplinks. *)
Definition entriesOf (TrimSpace : string → string) (Fields : string → list string)
    (texts : list string) : list (string * list string) :=
  omap (λ text, parseLine TrimSpace Fields (RemoveAll text "013")) texts.

(** [h] begins with the byte [c]. *)
Definition beginsWith (c : ascii) (h : string) : Prop :=
  match h with
  | String x _ => x = c
  | EmptyString => False
  end.

#[global] Instance beginsWith_dec c h : Decision (beginsWith c h).
Proof. destruct h; simpl; apply _. Defined.

(** A line that survives being written and read back: not empty, without a
    newline, not ending in a carriage return, shorter than the scanner's
    buffer. *)
Definition storable (line : string) : Prop :=
  line ≠ "" ∧ hasByte "010" line = false ∧ GoBufio.dropCR line = line ∧
  Z.of_nat (String.length line) < GoBufio.MaxScanTokenSize.


#[global] Instance storable_dec line : Decision (storable line).
Proof. unfold storable. apply _. Defined.

(** The LINKS reply carried by a 364 message, when it has its four
    parameters. *)
Definition replyOf (e : Irc.Message) : option LinkReply :=
  if (length (Irc.Params e) <? 4)%nat then None
  else
    let parts := SplitN2 (nth 3 (Irc.Params e) "") " " in
    Some (mkReply (nth 1 (Irc.Params e) "") (nth 2 (Irc.Params e) "")
                  (fst (GoStrconv.Atoi (nth 0 parts "")))
                  (if (1 <? length parts)%nat then nth 1 parts "" else "")).

(** The input lines of a document: the texts between its newlines; what
    follows the last newline is a line only when it is not empty. *)
Fixpoint linesOf (s : string) : list string :=
  match s with
  | EmptyString => []
  | String c s' =>
      if Ascii.eqb c "010" then "" :: linesOf s'
      else match linesOf s' with
           | [] => [String c ""]
           | line :: rest => String c line :: rest
           end
  end.

(** A line without its carriage returns. *)
Definition withoutCR (line : string) : string :=
  String.string_of_list_ascii
    (filter (λ c, c ≠ "013"%char) (String.list_ascii_of_string line)).

(** The text before the first byte [c] of [s] and the text after it. *)
Fixpoint beforeByte (c : ascii) (s : string) : string :=
  match s with
  | EmptyString => EmptyString
  | String x s' => if Ascii.eqb x c then EmptyString else String x (beforeByte c s')
  end.

Fixpoint afterByte (c : ascii) (s : string) : string :=
  match s with
  | EmptyString => EmptyString
  | String x s' => if Ascii.eqb x c then s' else afterByte c s'
  end.

(** The server entry of a line, if it is a data line: it matches no skip
    pattern, holds a colon and has a non-empty trimmed name before its first
    colon; its uplinks are the fields after that colon that begin with
    neither "(" nor "=". *)
Definition dataLine (TrimSpace : string → string) (Fields : string → list string)
    (line : string) : option (string * list string) :=
  if skipPatterns line then None
  else if hasByte ":" line then
    if decide (TrimSpace (beforeByte ":" line) = "") then None
    else Some (TrimSpace (beforeByte ":" line),
               filter (λ h, ¬ beginsWith "(" h ∧ ¬ beginsWith "=" h)
                      (Fields (TrimSpace (afterByte ":" line))))
  else None.

(** The server entries of the lines of a document, in line order. *)
Definition dataOf (TrimSpace : string → string) (Fields : string → list string)
    (lines : list string) : list (string * list string) :=
  omap (λ line, dataLine TrimSpace Fields (withoutCR line)) lines.

(** [n] times the byte [c]. *)
Fixpoint repeatByte (n : nat) (c : ascii) : string :=
  match n with
  | O => EmptyString
  | S n' => String c (repeatByte n' c)
  end.

(** The line of the report that names the missing servers. *)
Definition missingReport (missing : list string) : string :=
  if (0 <? length missing)%nat
  then "Missing servers: " +:+ Join missing ", " +:+ " ("
       +:+ pretty (length missing) +:+ ")"
  else "No servers are currently missing".

(** ** Scenarios *)

(** A client with nothing loaded and no query open. *)
Definition idleClient : Irc.Client :=
  Irc.mkClient true false (mkMap [] ∅ []) [] [] (Storage.mkMOTD "" "")
               ∅ ∅ ∅ None "" false.

(** The catalog and the snapshot of the reconciliation scenario. *)
Definition catalogHubABZ : Map := mkMap [] ∅ ["hub"; "a"; "b"; "z"].

Definition linkedHubAB : list LinkReply :=
  [mkReply "hub.net" "hub.net" 0 "Hub"; mkReply "a.net" "hub.net" 1 "A";
   mkReply "b.net" "hub.net" 1 "B"].

Definition fourServers : list LinkReply :=
  [mkReply "hub.net" "hub.net" 0 "Hub"; mkReply "a.net" "hub.net" 1 "A";
   mkReply "b.net" "hub.net" 1 "B"; mkReply "c.net" "a.net" 2 "C"].

Definition fourServersDepth (s : string) : nat :=
  if decide (s = "hub.net") then 0%nat
  else if decide (s = "c.net") then 2%nat else 1%nat.

(** The replies of [fourServers] in another arrival order, the record of
    b.net first reported with another description. *)
Definition fourServersAgain : list LinkReply :=
  [mkReply "c.net" "a.net" 2 "C"; mkReply "b.net" "hub.net" 1 "old";
   mkReply "a.net" "hub.net" 1 "A"; mkReply "b.net" "hub.net" 1 "B";
   mkReply "hub.net" "hub.net" 0 "Hub"].

(** A document of three lines whose second line has 65536 bytes. *)
Definition longLineDocument : string :=
  "a: b" +:+ String "010"
    (repeatByte (Z.to_nat 65536) "x" +:+ String "010"
       ("c: d" +:+ String "010" "")).

(** A document of five lines, one ending in a carriage return, the last
    without a newline; server1 occurs twice. *)
Definition repeatedNameDocument : string :=
  "Tier 1 Hubs" +:+ String "010"
    ("server1: hub1 hub2" +:+ String "013" (String "010"
       (String "010"
          ("server2: hub1" +:+ String "010" "server1: =x hub9")))).

(** Two servers that name each other as hub. *)
Definition twoCycle : list LinkReply :=
  [mkReply "r.net" "a.net" 0 "R"; mkReply "a.net" "r.net" 1 "A"].

(** A snapshot whose only record, the root, has the empty server name. *)
Definition unnamedRoot : list LinkReply := [mkReply "" "" 0 "Hub"].

(** * Properties *)

(** ** Byte-wise order on strings and [sortSlice] *)

Lemma ltb_le (a b : string) : String.ltb a b = true → String.le a b.
Proof.
  unfold String.ltb, String.le, String.leb.
  destruct (String.compare a b); done.
Qed.

Lemma ltb_false_le (a b : string) : String.ltb a b = false → String.le b a.
Proof.
  unfold String.ltb, String.le, String.leb.
  rewrite (String.compare_antisym b a).
  destruct (String.compare a b); done.
Qed.

Lemma le_ne_ltb (a b : string) : String.le a b → a ≠ b → String.ltb a b = true.
Proof.
  unfold String.ltb, String.le, String.leb.
  destruct (String.compare a b) eqn:E; try done.
  apply String.compare_eq_iff in E. done.
Qed.

Section SortSlice.
Context {A : Type} (less : A → A → bool).

Lemma insertBy_perm x l : insertBy less x l ≡ₚ x :: l.
Proof.
  induction l as [|y l IH]; simpl; [done|].
  destruct (less x y); [done|].
  rewrite IH. apply Permutation_swap.
Qed.

Lemma sortSlice_perm l : sortSlice less l ≡ₚ l.
Proof.
  induction l as [|x l IH]; simpl; [done|].
  rewrite insertBy_perm. by f_equiv.
Qed.

Lemma insertBy_fmap {B} (f : B → A) (x : B) (l : list B) :
  f <$> insertBy (λ a b, less (f a) (f b)) x l = insertBy less (f x) (f <$> l).
Proof.
  induction l as [|y l IH]; [done|].
  rewrite fmap_cons. cbn [insertBy].
  destruct (less (f x) (f y)); [done|].
  rewrite fmap_cons. by f_equal.
Qed.

Lemma sortSlice_fmap {B} (f : B → A) (l : list B) :
  f <$> sortSlice (λ a b, less (f a) (f b)) l = sortSlice less (f <$> l).
Proof.
  unfold sortSlice. induction l as [|x l IH]; [done|].
  rewrite fmap_cons. cbn [foldr]. rewrite <-IH. apply insertBy_fmap.
Qed.
End SortSlice.

Lemma insertBy_sorted x l :
  StronglySorted String.le l → StronglySorted String.le (insertBy String.ltb x l).
Proof.
  induction 1 as [|y l Hl IH Hy]; simpl.
  - repeat constructor.
  - destruct (String.ltb x y) eqn:E.
    + apply ltb_le in E. constructor; [by constructor|].
      constructor; [done|].
      eapply Forall_impl; [exact Hy|]. intros z Hz. by trans y.
    + apply ltb_false_le in E. constructor; [done|].
      rewrite insertBy_perm. by constructor.
Qed.

Lemma sortSlice_sorted l : StronglySorted String.le (sortSlice String.ltb l).
Proof.
  induction l as [|x l IH]; simpl; [constructor|]. by apply insertBy_sorted.
Qed.

(** The sorted sequence does not depend on the order of the input. *)
Lemma sortSlice_order_irrelevant (l1 l2 : list string) :
  l1 ≡ₚ l2 → sortSlice String.ltb l1 = sortSlice String.ltb l2.
Proof.
  intros Hp. apply (StronglySorted_unique String.le);
    [apply sortSlice_sorted..|].
  by rewrite !sortSlice_perm.
Qed.

Lemma sorted_le_NoDup_lt (l : list string) :
  StronglySorted String.le l → NoDup l →
  StronglySorted (λ a b, String.ltb a b = true) l.
Proof.
  induction 1 as [|x l Hl IH Hx]; intros Hnd; [constructor|].
  apply NoDup_cons in Hnd as [Hx' Hnd].
  constructor; [by apply IH|].
  apply Forall_forall. intros y Hy.
  apply le_ne_ltb; [by eapply Forall_forall in Hx|]. by intros ->.
Qed.

(** ** The loops over the map, read as list operations *)

Lemma foldl_pointwise {A B} (f g : A → B → A) (a : A) (l : list B) :
  (∀ a b, f a b = g a b) → foldl f a l = foldl g a l.
Proof.
  intros Hfg. revert a. induction l as [|x l IH]; intros a; simpl; [done|].
  by rewrite Hfg, IH.
Qed.

Lemma foldl_collect {A B} (p : B → bool) (g : A → B) (acc : list B) (l : list A) :
  foldl (λ cs x, if p (g x) then cs ++ [g x] else cs) acc l
  = acc ++ filter (λ b, p b) (g <$> l).
Proof.
  revert acc. induction l as [|x l IH]; intros acc; simpl.
  - by rewrite app_nil_r.
  - rewrite IH, filter_cons. destruct (p (g x)) eqn:E.
    + rewrite decide_True by done. by rewrite <-app_assoc.
    + by rewrite decide_False by (by intros []).
Qed.

Lemma children_loop parent (it : list (string * LinkEntry)) :
  foldl (λ children '(_, entry),
           if isChildOf parent entry then children ++ [entry] else children)
        [] it
  = filter (λ e, isChildOf parent e) it.*2.
Proof.
  etrans; [|exact (foldl_collect (isChildOf parent) snd [] it)].
  apply foldl_pointwise. by intros cs [s e].
Qed.

Lemma foldl_snoc_fmap {A B} (g : A → B) (acc : list B) (l : list A) :
  foldl (λ bs x, bs ++ [g x]) acc l = acc ++ (g <$> l).
Proof.
  revert acc. induction l as [|x l IH]; intros acc; simpl.
  - by rewrite app_nil_r.
  - by rewrite IH, <-app_assoc.
Qed.

Lemma linked_loop (it : list (string * LinkEntry)) :
  foldl (λ servers '(server, _), servers ++ [shortName server]) [] it
  = shortName <$> it.*1.
Proof.
  rewrite <-list_fmap_compose.
  etrans; [|exact (foldl_snoc_fmap (shortName ∘ fst) [] it)].
  apply foldl_pointwise. by intros cs [s e].
Qed.

(** The children of a node, as names, do not depend on the iteration order. *)
Lemma children_names ρ k m parent :
  fair ρ →
  Server <$> sortSlice lessServer
    (foldl (λ children '(_, entry),
              if isChildOf parent entry then children ++ [entry] else children)
           [] (rangeMap ρ k m))
  = kids m parent.
Proof.
  intros Hfair. rewrite children_loop. unfold lessServer, kids.
  rewrite (sortSlice_fmap String.ltb Server).
  apply sortSlice_order_irrelevant.
  unfold rangeMap. by rewrite (Hfair k (map_to_list m)).
Qed.

(** ** [sortChildren] computes [walk], whatever the iteration order *)

Lemma sortChildren_walk ρ t (Hfair : fair ρ) fuel :
  ∀ parent result k,
    match walk fuel (entries t) parent with
    | Some sub =>
        ∃ k', sortChildren fuel ρ t parent (result, k) = Some (result ++ sub, k')
    | None => sortChildren fuel ρ t parent (result, k) = None
    end.
Proof.
  induction fuel as [|fuel IH]; intros parent result k; [done|].
  cbn [sortChildren walk fst snd].
  set (F := λ (acc : option (list string * nat)) (c : string),
         match acc with
         | None => None
         | Some (result, k) => sortChildren fuel ρ t c (result ++ [c], k)
         end).
  rewrite <-(foldl_fmap F _ _ Server), children_names by done.
  assert (∀ cs r0 r k0,
    match foldl (λ acc c, match acc with
                          | None => None
                          | Some r => match walk fuel (entries t) c with
                                      | None => None
                                      | Some sub => Some (r ++ c :: sub)
                                      end
                          end) (Some r) cs with
    | Some sub => ∃ k', foldl F (Some (r0 ++ r, k0)) cs = Some (r0 ++ sub, k')
    | None => foldl F (Some (r0 ++ r, k0)) cs = None
    end) as Hloop.
  { induction cs as [|c cs IHcs]; intros r0 r k0; simpl; [by eexists|].
    specialize (IH c ((r0 ++ r) ++ [c]) k0).
    destruct (walk fuel (entries t) c) as [sub|].
    - destruct IH as [k' ->].
      replace (((r0 ++ r) ++ [c]) ++ sub) with (r0 ++ (r ++ c :: sub))
        by (by rewrite <-!app_assoc).
      apply IHcs.
    - rewrite IH. clear.
      assert (foldl F None cs = None) as ->
        by (induction cs as [|c' cs IHcs]; simpl; done).
      by induction cs as [|c' cs IHcs]; simpl. }
  specialize (Hloop (kids (entries t) parent) result [] (S k)).
  by rewrite app_nil_r in Hloop.
Qed.

(** ** The root search of [Build] *)

Lemma findRoot_spec (it : list (string * LinkEntry)) (r : string) :
  (findRoot it r = r ∧ ∀ s e, (s, e) ∈ it → Hops e ≠ 0) ∨
  (∃ e, (findRoot it r, e) ∈ it ∧ Hops e = 0).
Proof.
  induction it as [|[s e] it IH]; simpl.
  - left. split; [done|]. intros s e H. by apply elem_of_nil in H.
  - destruct (Z.eqb_spec (Hops e) 0) as [E|E].
    + right. exists e. split; [left|done].
    + destruct IH as [[-> IH]|[e' [Hin He']]].
      * left. split; [done|]. intros s' e' [[= -> ->]|Hin]%elem_of_cons; eauto.
      * right. exists e'. split; [by right|done].
Qed.

Lemma findRoot_order_irrelevant (it1 it2 : list (string * LinkEntry)) r :
  it1 ≡ₚ it2 →
  (∀ s1 e1 s2 e2, (s1, e1) ∈ it1 → (s2, e2) ∈ it1 →
     Hops e1 = 0 → Hops e2 = 0 → s1 = s2) →
  findRoot it1 r = findRoot it2 r.
Proof.
  intros Hp Huniq.
  assert (∀ x, x ∈ it1 ↔ x ∈ it2) as Hiff by (intros x; by rewrite Hp).
  destruct (findRoot_spec it1 r) as [[-> H1]|[e1 [Hin1 He1]]],
           (findRoot_spec it2 r) as [[-> H2]|[e2 [Hin2 He2]]].
  - done.
  - apply Hiff in Hin2. by destruct (H1 _ _ Hin2).
  - apply Hiff in Hin1. by destruct (H2 _ _ Hin1).
  - apply Hiff in Hin2. eauto.
Qed.

Lemma elem_of_rangeMap ρ k m s e :
  fair ρ → (s, e) ∈ rangeMap ρ k m ↔ m !! s = Some e.
Proof.
  intros Hfair. unfold rangeMap.
  by rewrite (Hfair k (map_to_list m)), elem_of_map_to_list.
Qed.

Lemma findRoot_fair ρ k m :
  fair ρ → atMostOneRoot m →
  findRoot (rangeMap ρ k m) "" = findRoot (map_to_list m) "".
Proof.
  intros Hfair Hone. apply findRoot_order_irrelevant; [apply Hfair|].
  intros s1 e1 s2 e2. rewrite !elem_of_rangeMap by done.
  intros H1 H2. exact (Hone s1 e1 H1 s2 e2 H2).
Qed.

(** With exactly one record at [Hops == 0], the search finds it. *)
Lemma findRoot_onlyRoot ρ k m root :
  fair ρ → onlyRoot m root → findRoot (rangeMap ρ k m) "" = root.
Proof.
  intros Hfair [[r Hr] Hone].
  destruct (findRoot_spec (rangeMap ρ k m) "") as [[_ H]|[e [Hin He]]].
  - destruct (H root r).
    + by apply elem_of_rangeMap.
    + by apply (Hone root r Hr).
  - apply elem_of_rangeMap in Hin; [|done]. by apply (Hone _ _ Hin).
Qed.

Lemma onlyRoot_atMostOne m root : onlyRoot m root → atMostOneRoot m.
Proof.
  intros [_ Hone] s1 e1 H1 s2 e2 H2 E1 E2.
  apply (Hone _ _ H1) in E1. apply (Hone _ _ H2) in E2. congruence.
Qed.

(** ** [Build] in terms of [walk] *)

Lemma Build_walk fuel ρ k t :
  fair ρ →
  Build fuel ρ k t =
    if (size (entries t) =? 0)%nat then Returns []
    else
      let root := findRoot (rangeMap ρ k (entries t)) "" in
      if String.eqb root "" then Returns [noRootLine]
      else match walk fuel (entries t) root with
           | None => OutOfFuel
           | Some sub => renderLines t (root :: sub) []
           end.
Proof.
  intros Hfair. unfold Build, sortHierarchically.
  destruct (size (entries t) =? 0)%nat; [done|]. cbv zeta.
  destruct (String.eqb _ ""); [done|].
  pose proof (sortChildren_walk ρ t Hfair fuel
                (findRoot (rangeMap ρ k (entries t)) "")
                [findRoot (rangeMap ρ k (entries t)) ""] (S k)) as H.
  destruct (walk fuel (entries t) _) as [sub|].
  - destruct H as [k' ->]. done.
  - by rewrite H.
Qed.

(** ** Children of a node *)

Lemma keyed_values_names (m : gmap string LinkEntry) :
  keyed m → Server <$> (map_to_list m).*2 = (map_to_list m).*1.
Proof.
  intros Hk. rewrite <-list_fmap_compose.
  apply list_fmap_ext. intros i [s e] Hi. simpl.
  apply (Hk s e). apply elem_of_map_to_list. by eapply list_elem_of_lookup_2.
Qed.

Lemma elem_of_kids (m : gmap string LinkEntry) p c :
  keyed m → c ∈ kids m p ↔ childOf m p c.
Proof.
  intros Hk. unfold kids, childOf. rewrite sortSlice_perm, list_elem_of_fmap.
  split.
  - intros (e & -> & [Hc Hin]%list_elem_of_filter).
    apply list_elem_of_fmap in Hin as ([s e'] & -> & Hin). simpl in *.
    apply elem_of_map_to_list in Hin. pose proof (Hk _ _ Hin) as Hs.
    simpl in Hs. unfold isChildOf in Hc.
    apply andb_prop_elim in Hc as [H1 H2].
    apply bool_decide_unpack in H1. apply negb_prop_elim in H2.
    rewrite bool_decide_spec in H2.
    exists e'. rewrite Hs in H2 |- *. done.
  - intros (e & He & Hhub & Hne). pose proof (Hk _ _ He) as Hs. simpl in Hs.
    exists e. split; [done|]. apply list_elem_of_filter. split.
    + unfold isChildOf. apply andb_prop_intro. split.
      * by apply bool_decide_pack.
      * apply negb_prop_intro. rewrite bool_decide_spec. congruence.
    + apply list_elem_of_fmap. exists (c, e). split; [done|].
      by apply elem_of_map_to_list.
Qed.

Lemma NoDup_kids (m : gmap string LinkEntry) p : keyed m → NoDup (kids m p).
Proof.
  intros Hk. unfold kids. rewrite sortSlice_perm.
  apply (sublist_NoDup _ (map_to_list m).*1).
  - apply NoDup_fst_map_to_list.
  - rewrite <-keyed_values_names by done.
    apply fmap_sublist, sublist_filter.
Qed.

Lemma kids_ascending (m : gmap string LinkEntry) p :
  keyed m → StronglySorted (λ a b, String.ltb a b = true) (kids m p).
Proof.
  intros Hk. apply sorted_le_NoDup_lt; [apply sortSlice_sorted|by apply NoDup_kids].
Qed.

Lemma keyed_collect rs : keyed (entries (collect rs)).
Proof.
  unfold collect. induction rs as [|r rs IH] using rev_ind.
  - apply map_Forall_empty.
  - rewrite foldl_app. simpl. by apply map_Forall_insert_2.
Qed.

(** ** Shape of a finished walk *)

Lemma walk_loop fuel m cs :
  ∀ r out,
    foldl (λ acc c,
             match acc with
             | None => None
             | Some r =>
                 match walk fuel m c with
                 | None => None
                 | Some sub => Some (r ++ c :: sub)
                 end
             end) (Some r) cs = Some out
    ↔ ∃ blocks,
        Forall2 (λ c b, ∃ l, walk fuel m c = Some l ∧ b = c :: l) cs blocks
        ∧ out = r ++ concat blocks.
Proof.
  induction cs as [|c cs IH]; intros r out; simpl.
  - split.
    + intros [= <-]. exists []. split; [constructor|]. by rewrite app_nil_r.
    + intros (blocks & Hb & ->). inv Hb. simpl. by rewrite app_nil_r.
  - destruct (walk fuel m c) as [l|] eqn:El.
    + rewrite IH. split.
      * intros (blocks & Hb & ->). exists ((c :: l) :: blocks). split.
        -- constructor; [by exists l|done].
        -- simpl. by rewrite <-app_assoc.
      * intros (blocks & Hb & ->). inv Hb.
        match goal with H : ex _ |- _ => destruct H as (l0 & Hl0 & ->) end.
        rewrite El in Hl0. injection Hl0 as <-.
        eexists. split; [done|]. simpl. by rewrite <-app_assoc.
    + split.
      * intros H. exfalso. revert H. clear.
        induction cs as [|c' cs IH]; simpl; [done|]. exact IH.
      * intros (blocks & Hb & _). inv Hb.
        match goal with H : ex _ |- _ => destruct H as (l0 & Hl0 & _) end.
        by rewrite El in Hl0.
Qed.

Lemma walk_S fuel m q sub :
  walk (S fuel) m q = Some sub
  ↔ ∃ blocks,
      Forall2 (λ c b, ∃ l, walk fuel m c = Some l ∧ b = c :: l) (kids m q) blocks
      ∧ sub = concat blocks.
Proof. cbn [walk]. by rewrite walk_loop. Qed.

(** ** Trees of hub pointers *)

Section HubTree.
Context (m : gmap string LinkEntry) (depth : string → nat) (root : string).
Hypothesis Hkeyed : keyed m.
Hypothesis Htree : hubTree depth m root.

Lemma child_held p c : childOf m p c → is_Some (m !! c).
Proof. intros (e & He & _). eauto. Qed.

Lemma child_parent_unique p p' c : childOf m p c → childOf m p' c → p = p'.
Proof. intros (e & He & <- & _) (e' & He' & <- & _). congruence. Qed.

Lemma child_deeper p c :
  is_Some (m !! p) → childOf m p c → (depth p < depth c)%nat.
Proof.
  intros [ep Hp] (e & He & <- & Hne).
  destruct (Htree c e He) as [Hr Hn].
  destruct (decide (c = root)) as [->|Hc].
  - destruct (Hr eq_refl) as [H|H]; [congruence|]. destruct H. eauto.
  - by destruct (Hn Hc).
Qed.

Lemma upto_held s a : upto m s a → is_Some (m !! a) → is_Some (m !! s).
Proof. destruct 1; [done|]. intros _. by eapply child_held. Qed.

Lemma upto_depth s a :
  upto m s a → is_Some (m !! a) → (depth a ≤ depth s)%nat.
Proof.
  induction 1 as [|s p a Hc Hup IH]; intros Ha; [done|].
  specialize (IH Ha).
  pose proof (child_deeper p s (upto_held _ _ Hup Ha) Hc). lia.
Qed.

Lemma upto_trans s a b : upto m s a → upto m a b → upto m s b.
Proof. induction 1; [done|]. intros. eapply upto_step; eauto. Qed.

Lemma upto_linear s a b : upto m s a → upto m s b → upto m a b ∨ upto m b a.
Proof.
  induction 1 as [|s p a Hc Hup IH]; intros Hb; [by left|].
  destruct Hb as [|s p' b Hc' Hb].
  - right. by eapply upto_step.
  - rewrite <-(child_parent_unique _ _ _ Hc Hc') in Hb. auto.
Qed.

Lemma upto_first_child s q :
  upto m s q → s ≠ q → ∃ c, childOf m q c ∧ upto m s c.
Proof.
  induction 1 as [|s p q Hc Hup IH]; intros Hne; [done|].
  destruct (decide (p = q)) as [->|Hpq].
  - exists s. split; [done|constructor].
  - destruct (IH Hpq) as (c & Hqc & Hpc). exists c. split; [done|].
    by eapply upto_step.
Qed.

(** Subtrees of distinct children of a held node do not meet. *)
Lemma siblings_apart q c1 c2 s :
  is_Some (m !! q) → childOf m q c1 → childOf m q c2 →
  upto m s c1 → upto m s c2 → c1 = c2.
Proof.
  intros Hq H1 H2 Hs1 Hs2.
  assert (∀ a b, childOf m q a → childOf m q b → upto m a b → a = b) as Hkey.
  { intros a b Ha Hb Hab. destruct Hab as [|a p b Hc Hup]; [done|].
    rewrite (child_parent_unique _ _ _ Hc Ha) in Hup.
    pose proof (upto_depth _ _ Hup (child_held _ _ Hb)).
    pose proof (child_deeper _ _ Hq Hb). lia. }
  destruct (upto_linear _ _ _ Hs1 Hs2); [|symmetry]; eauto.
Qed.

(** Every held record hangs below the root. *)
Lemma held_upto_root s : is_Some (m !! s) → upto m s root.
Proof.
  remember (depth s) as n eqn:En. revert s En.
  induction (lt_wf n) as [n _ IH]. intros s -> [e He].
  destruct (decide (s = root)) as [->|Hne]; [constructor|].
  destruct (Htree s e He) as [_ H]. destruct (H Hne) as [Hh Hd].
  apply (upto_step m s (Hub e)).
  - exists e. repeat split; [done|]. intros E. rewrite <-E in Hd. lia.
  - by apply (IH (depth (Hub e))).
Qed.

Lemma blocks_sound fuel q cs blocks :
  is_Some (m !! q) → NoDup cs → (∀ c, c ∈ cs → childOf m q c) →
  (∀ c sub, is_Some (m !! c) → walk fuel m c = Some sub →
     NoDup sub ∧ (∀ s, s ∈ sub ↔ upto m s c ∧ s ≠ c) ∧
     preorder m c (c :: sub)) →
  Forall2 (λ c b, ∃ l, walk fuel m c = Some l ∧ b = c :: l) cs blocks →
  NoDup (concat blocks) ∧
  (∀ s, s ∈ concat blocks ↔ ∃ c, c ∈ cs ∧ upto m s c) ∧
  Forall2 (preorder m) cs blocks.
Proof.
  intros Hq Hnd Hch IH Hb.
  induction Hb as [|c b cs blocks (l & Hl & ->) Hb IHb]; simpl.
  - split; [constructor|]. split; [|constructor].
    intros s. split; [by intros ?%elem_of_nil|].
    by intros (c & ?%elem_of_nil & _).
  - apply NoDup_cons in Hnd as [Hc Hnd].
    assert (childOf m q c) as Hqc by (apply Hch; left).
    destruct (IH c l (child_held _ _ Hqc) Hl) as (Hndl & Hin & Hpre).
    destruct IHb as (IH1 & IH2 & IH3); [done|by intros; apply Hch; right|].
    split; [|split].
    + change (NoDup ((c :: l) ++ concat blocks)). apply NoDup_app.
      split; [|split; [|done]].
      * apply NoDup_cons. split; [|done]. rewrite Hin. by intros [_ ?].
      * intros s Hs Hs'. apply IH2 in Hs' as (c' & Hc' & Hsc').
        assert (upto m s c) as Hsc.
        { apply elem_of_cons in Hs as [->|Hs]; [constructor|by apply Hin]. }
        assert (c = c') as <-; [|done].
        eapply (siblings_apart q); eauto. apply Hch. by right.
    + intros s. rewrite elem_of_cons, elem_of_app, IH2, Hin. split.
      * intros [->|[[Hs _]|(c' & Hc' & Hs)]].
        -- exists c. split; [left|constructor].
        -- exists c. split; [left|done].
        -- exists c'. split; [by right|done].
      * intros (c' & [->|Hc']%elem_of_cons & Hs).
        -- destruct (decide (s = c)) as [->|Hne]; [by left|].
           right. left. done.
        -- right. right. eauto.
    + constructor; done.
Qed.

Lemma walk_sound fuel :
  ∀ q sub, is_Some (m !! q) → walk fuel m q = Some sub →
    NoDup sub ∧ (∀ s, s ∈ sub ↔ upto m s q ∧ s ≠ q) ∧
    preorder m q (q :: sub).
Proof.
  induction fuel as [|fuel IH]; intros q sub Hq Hw; [done|].
  apply walk_S in Hw as (blocks & Hb & ->).
  destruct (blocks_sound fuel q (kids m q) blocks) as (H1 & H2 & H3);
    [done|by apply NoDup_kids|by intros c ?%elem_of_kids|exact IH|done|].
  split; [done|]. split.
  - intros s. rewrite H2. split.
    + intros (c & Hc%elem_of_kids & Hs); [|done]. split.
      * eapply upto_trans; [done|]. eapply upto_step; [done|constructor].
      * intros ->.
        pose proof (upto_depth _ _ Hs (child_held _ _ Hc)).
        pose proof (child_deeper _ _ Hq Hc). lia.
    + intros [Hs Hne]. destruct (upto_first_child _ _ Hs Hne) as (c & Hc & Hsc).
      exists c. split; [by apply elem_of_kids|done].
  - apply (preorder_node m q (kids m q) blocks);
      [by apply kids_ascending| |done].
    intros c. by apply elem_of_kids.
Qed.

Lemma walk_more_fuel fuel :
  ∀ q sub, walk fuel m q = Some sub → walk (S fuel) m q = Some sub.
Proof.
  induction fuel as [|fuel IH]; intros q sub Hw; [done|].
  apply walk_S in Hw as (blocks & Hb & ->).
  apply walk_S. exists blocks. split; [|done].
  eapply Forall2_impl; [exact Hb|].
  intros c b (l & Hl & ->). exists l. split; [by apply IH|done].
Qed.

Lemma walk_fuel_le fuel fuel' q sub :
  (fuel ≤ fuel')%nat → walk fuel m q = Some sub → walk fuel' m q = Some sub.
Proof. induction 1; [done|]. intros. by apply walk_more_fuel, IHle. Qed.

Lemma walk_terminates (D : nat) fuel :
  (∀ s, is_Some (m !! s) → (depth s ≤ D)%nat) →
  ∀ q, is_Some (m !! q) → (D - depth q < fuel)%nat → is_Some (walk fuel m q).
Proof.
  intros HD. induction fuel as [|fuel IH]; intros q Hq Hlt; [lia|].
  assert (∃ blocks,
    Forall2 (λ c b, ∃ l, walk fuel m c = Some l ∧ b = c :: l) (kids m q) blocks)
    as [blocks Hb].
  { assert (Forall (λ c, childOf m q c) (kids m q)) as Hall.
    { apply Forall_forall. intros c. by apply elem_of_kids. }
    induction Hall as [|c cs Hc _ IHcs]; [by exists []|].
    destruct IHcs as [blocks Hb].
    destruct (IH c) as [l Hl].
    - by eapply child_held.
    - pose proof (child_deeper _ _ Hq Hc).
      pose proof (HD c (child_held _ _ Hc)). lia.
    - exists ((c :: l) :: blocks). constructor; [by exists l|done]. }
  exists (concat blocks). apply walk_S. eauto.
Qed.

Lemma depth_bound : ∃ D, ∀ s, is_Some (m !! s) → (depth s ≤ D)%nat.
Proof.
  exists (max_list (depth <$> (map_to_list m).*1)). intros s [e He].
  apply max_list_elem_of_le, list_elem_of_fmap. exists s. split; [done|].
  apply list_elem_of_fmap. exists (s, e). split; [done|].
  by apply elem_of_map_to_list.
Qed.

(** The walk from the root ends, and lists every other record once. *)
Lemma walk_root :
  is_Some (m !! root) →
  ∃ n sub,
    (∀ fuel, (n ≤ fuel)%nat → walk fuel m root = Some sub) ∧
    root :: sub ≡ₚ (map_to_list m).*1 ∧
    preorder m root (root :: sub).
Proof.
  intros Hroot. destruct depth_bound as [D HD].
  destruct (walk_terminates D (S D) HD root Hroot) as [sub Hsub]; [lia|].
  exists (S D), sub.
  destruct (walk_sound _ _ _ Hroot Hsub) as (Hnd & Hin & Hpre).
  split; [|split; [|done]].
  - intros fuel Hle. by eapply walk_fuel_le.
  - apply NoDup_Permutation.
    + apply NoDup_cons. split; [|done]. rewrite Hin. by intros [_ ?].
    + apply NoDup_fst_map_to_list.
    + intros s. rewrite elem_of_cons, Hin, list_elem_of_fmap. split.
      * intros [->|[Hs Hne]].
        -- destruct Hroot as [e He]. exists (root, e).
           split; [done|]. by apply elem_of_map_to_list.
        -- destruct (upto_held _ _ Hs Hroot) as [e He]. exists (s, e).
           split; [done|]. by apply elem_of_map_to_list.
      * intros ([s' e] & -> & He%elem_of_map_to_list). simpl.
        destruct (decide (s' = root)) as [->|Hne]; [by left|].
        right. split; [|done]. apply held_upto_root. eauto.
Qed.

End HubTree.

(** ** The renderer *)

Lemma hasMoreAtLevel_spec t level remaining :
  hasMoreAtLevel t level remaining = true ↔ laterAt t level remaining.
Proof.
  unfold laterAt. induction remaining as [|s rest IH]; simpl.
  - split; [done|]. by intros ?%Exists_nil.
  - rewrite Exists_cons, <-IH. clear IH.
    destruct (entries t !! s) as [e|] eqn:Es.
    + destruct (Z.eqb_spec (Hops e) level) as [E|E].
      * split; [|done]. intros _. left. eauto.
      * split; [by right|]. intros [(e' & [= <-] & ?)|?]; done.
    + split; [by right|]. by intros [(e' & [=] & _)|?].
Qed.

Lemma app_string_assoc (a b c : string) : (a +:+ b) +:+ c = a +:+ b +:+ c.
Proof.
  induction a as [|x a IH]; [done|].
  unfold String.app in *. simpl. by f_equal.
Qed.

Lemma app_string_nil_r (a : string) : a +:+ "" = a.
Proof.
  induction a as [|x a IH]; [done|].
  unfold String.app in *. simpl. by f_equal.
Qed.

Lemma length_app_string (a b : string) :
  String.length (a +:+ b) = (String.length a + String.length b)%nat.
Proof.
  induction a as [|x a IH]; [done|].
  change (String x a +:+ b) with (String x (a +:+ b)). simpl. by rewrite IH.
Qed.

Lemma foldr_app_string (segs : list string) (a b : string) :
  foldr String.app a segs +:+ b = foldr String.app (a +:+ b) segs.
Proof.
  induction segs as [|s segs IH]; simpl; [done|].
  by rewrite app_string_assoc, IH.
Qed.

Lemma prefixLoop_spec t hops remaining n :
  ∀ level prefix,
    (Z.to_nat (hops - level) ≤ n)%nat →
    prefixLoop t hops remaining n level prefix
    = prefix +:+
      foldr String.app ""
        ((λ l, segment (hasMoreAtLevel t (l + 1) remaining))
           <$> seqZ level (hops - level)).
Proof.
  induction n as [|n IH]; intros level prefix Hn; simpl.
  - rewrite seqZ_nil by lia. simpl. by rewrite app_string_nil_r.
  - destruct (Z.ltb_spec level hops) as [Hlt|Hge].
    + rewrite IH by lia. rewrite (seqZ_cons level (hops - level)) by lia.
      rewrite fmap_cons. cbn [foldr]. rewrite app_string_assoc.
      replace (Z.succ level) with (level + 1) by lia.
      replace (Z.pred (hops - level)) with (hops - (level + 1)) by lia.
      done.
    + rewrite seqZ_nil by lia. simpl. by rewrite app_string_nil_r.
Qed.

Lemma formatLine_lineSpec t entry remaining :
  formatLine t entry remaining
  = lineSpec (λ level, hasMoreAtLevel t (level + 1) remaining) entry.
Proof.
  unfold formatLine, lineSpec, sprintfNode.
  destruct (Z.eqb_spec (Hops entry) 0) as [E|E].
  - by rewrite decide_True.
  - rewrite decide_False by done.
    rewrite prefixLoop_spec by lia. cbn [String.app].
    replace ("" +:+ foldr String.app ""
      ((λ l, segment (hasMoreAtLevel t (l + 1) remaining))
         <$> seqZ 1 (Hops entry - 1)))
      with (foldr String.app ""
      ((λ l, segment (hasMoreAtLevel t (l + 1) remaining))
         <$> seqZ 1 (Hops entry - 1))) by done.
    by rewrite !foldr_app_string.
Qed.

Lemma renderLines_spec t ordered :
  ∀ acc lines,
    renderLines t ordered acc = Returns lines →
    ∃ out, lines = acc ++ out ∧ length out = length ordered ∧
      ∀ i s, ordered !! i = Some s →
        ∃ e, entries t !! s = Some e ∧
             out !! i = Some (formatLine t e (drop (S i) ordered)).
Proof.
  induction ordered as [|s rest IH]; intros acc lines; simpl.
  - intros [= <-]. exists []. by rewrite app_nil_r.
  - destruct (entries t !! s) as [e|] eqn:Es; [|done].
    intros (out & -> & Hlen & Hout)%IH.
    exists (formatLine t e rest :: out). split; [by rewrite <-app_assoc|].
    split; [by simpl; rewrite Hlen|].
    intros [|i] s'; simpl.
    + intros [= <-]. eauto.
    + apply Hout.
Qed.

Lemma renderLines_held t ordered :
  Forall (λ s, is_Some (entries t !! s)) ordered →
  ∀ acc, ∃ out, renderLines t ordered acc = Returns (acc ++ out)
                ∧ length out = length ordered.
Proof.
  induction 1 as [|s rest [e He] _ IH]; intros acc; simpl.
  - exists []. by rewrite app_nil_r.
  - rewrite He. destruct (IH (acc ++ [formatLine t e rest])) as (out & -> & Hl).
    exists (formatLine t e rest :: out). split; [by rewrite <-app_assoc|].
    by simpl; rewrite Hl.
Qed.

(** * The claims *)

Lemma fair_inOrder : fair inOrder.
Proof. by intros n l. Qed.

(** C1 (as amended).  For every collected snapshot with exactly one record at
    [Hops == 0], whose hub pointers form a tree rooted at that record, and
    whose root has a non-empty server name: with enough recursion budget and
    whatever the iteration order of the map, [sortHierarchically] returns one
    and the same sequence, [Build] renders exactly that sequence, the sequence
    begins with the root, contains the server name of every record exactly
    once, and is the depth-first pre-order in which the children of each node
    come in strictly ascending byte-wise order. *)
Theorem tree_order_of_rooted_snapshot
    (rs : list LinkReply) (depth : string → nat) (root : string) :
  onlyRoot (entries (collect rs)) root →
  hubTree depth (entries (collect rs)) root →
  root ≠ "" →
  ordersTree rs root.
Proof.
  unfold ordersTree. set (t := collect rs). intros Hone Htree Hname.
  pose proof (keyed_collect rs : keyed (entries t)) as Hk.
  destruct (walk_root (entries t) depth root Hk Htree (proj1 Hone))
    as (n & sub & Hwalk & Hperm & Hpre).
  exists (root :: sub), n. split; [done|]. split.
  { by rewrite keyed_values_names. }
  split; [done|]. intros fuel ρ k Hfair Hfuel.
  specialize (Hwalk fuel Hfuel). split.
  - pose proof (sortChildren_walk ρ t Hfair fuel root [root] k) as H.
    rewrite Hwalk in H. exact H.
  - assert (Forall (λ s, is_Some (entries t !! s)) (root :: sub)) as Hheld.
    { apply Forall_forall. intros s Hs. rewrite Hperm in Hs.
      apply list_elem_of_fmap in Hs as ([s' e] & -> & He%elem_of_map_to_list).
      eauto. }
    destruct (renderLines_held t _ Hheld []) as (lines & Hr & Hlen).
    exists lines. split; [|done].
    rewrite Build_walk by done.
    destruct (Nat.eqb_spec (size (entries t)) 0) as [E|_].
    { apply map_size_empty_inv in E. destruct Hone as [[e He] _].
      rewrite E in He. by rewrite lookup_empty in He. }
    cbv zeta. rewrite (findRoot_onlyRoot ρ k _ root) by done.
    apply String.eqb_neq in Hname. by rewrite Hname, Hwalk.
Qed.

Lemma fourServers_onlyRoot : onlyRoot (entries (collect fourServers)) "hub.net".
Proof.
  split; [vm_compute; eauto|compute_done].
Qed.

Lemma tree_order_four_servers :
  onlyRoot (entries (collect fourServers)) "hub.net" ∧
  hubTree fourServersDepth (entries (collect fourServers)) "hub.net" ∧
  ordersTree fourServers "hub.net".
Proof.
  assert (onlyRoot (entries (collect fourServers)) "hub.net") as Hroot.
  { split; [vm_compute; eauto|compute_done]. }
  assert (hubTree fourServersDepth (entries (collect fourServers)) "hub.net")
    as Htree by compute_done.
  split; [exact Hroot|]. split; [exact Htree|].
  apply (tree_order_of_rooted_snapshot fourServers fourServersDepth "hub.net").
  - exact Hroot.
  - exact Htree.
  - discriminate.
Defined.

(** C1 as stated fails: the snapshot [unnamedRoot] has exactly one record at
    [Hops == 0] and its hub pointers form a tree, yet [Build] answers with the
    diagnostic line and renders no sequence. *)
Lemma tree_order_fails_for_unnamed_root :
  onlyRoot (entries (collect unnamedRoot)) "" ∧
  hubTree (λ _, 0%nat) (entries (collect unnamedRoot)) "" ∧
  Build 1 inOrder 0 (collect unnamedRoot) = Returns [noRootLine] ∧
  ¬ ordersTree unnamedRoot "".
Proof.
  split.
  { split; [vm_compute; eauto|compute_done]. }
  split; [compute_done|].
  split; [reflexivity|].
  intros (ordered & n & Hhead & _ & _ & H).
  destruct (H n inOrder 0%nat fair_inOrder (le_n n)) as (_ & lines & HB & HR & _).
  assert (Build n inOrder 0 (collect unnamedRoot) = Returns [noRootLine]) as E
    by reflexivity.
  rewrite E in HB. injection HB as <-.
  destruct ordered as [|s rest]; [done|]. injection Hhead as ->.
  apply renderLines_spec in HR as (out & Hl & _ & Hout).
  destruct (Hout 0%nat "" eq_refl) as (e & He & Hline).
  simpl in Hl. subst out. injection He as <-.
  vm_compute in Hline. discriminate.
Qed.

(** C6.  For the snapshot hub.net / a.net / b.net / c.net of the scenario, the
    tree builder's sequence is hub.net, a.net, c.net, b.net, for every
    iteration order of the map and every recursion budget of at least three
    levels; [Build] renders that sequence. *)
Theorem four_servers_order (fuel : nat) (ρ : RangeOrder) (k : nat) :
  fair ρ → (3 ≤ fuel)%nat →
  (∃ k', sortHierarchically fuel ρ (collect fourServers) "hub.net" k
         = Some (["hub.net"; "a.net"; "c.net"; "b.net"], k')) ∧
  Build fuel ρ k (collect fourServers)
  = Returns ["hub.net (0) Hub"; "|_ a.net (1) A"; "    |_ c.net (2) C";
             "|_ b.net (1) B"].
Proof.
  intros Hfair Hfuel.
  assert (walk fuel (entries (collect fourServers)) "hub.net"
          = Some ["a.net"; "c.net"; "b.net"]) as Hwalk.
  { apply (walk_fuel_le _ 3); [done|]. by vm_compute. }
  split.
  - pose proof (sortChildren_walk ρ (collect fourServers) Hfair fuel
                  "hub.net" ["hub.net"] k) as H.
    rewrite Hwalk in H. exact H.
  - rewrite Build_walk by done.
    rewrite (findRoot_onlyRoot ρ k _ "hub.net" Hfair fourServers_onlyRoot).
    change (size (entries (collect fourServers)) =? 0)%nat with false.
    cbv zeta. change (String.eqb "hub.net" "") with false. cbv iota.
    rewrite Hwalk. by vm_compute.
Qed.

Lemma four_servers_order_reversed :
  (∃ k', sortHierarchically 5 reversed (collect fourServers) "hub.net" 0
         = Some (["hub.net"; "a.net"; "c.net"; "b.net"], k')) ∧
  Build 5 reversed 0 (collect fourServers)
  = Returns ["hub.net (0) Hub"; "|_ a.net (1) A"; "    |_ c.net (2) C";
             "|_ b.net (1) B"].
Proof.
  apply (four_servers_order 5 reversed 0).
  - intros n l. apply reverse_Permutation.
  - lia.
Defined.

(** ** The diagnostic line *)

Lemma hasByte_app c (a b : string) :
  hasByte c (a +:+ b) = hasByte c a || hasByte c b.
Proof.
  induction a as [|x a IH]; [done|].
  change (String x a +:+ b) with (String x (a +:+ b)). simpl.
  by rewrite IH, orb_assoc.
Qed.

Lemma sprintfNode_not_diagnostic e : sprintfNode e ≠ noRootLine.
Proof.
  intros E. apply (f_equal (hasByte "(")) in E. unfold sprintfNode in E.
  rewrite !hasByte_app in E. cbn in E. rewrite orb_true_r in E. discriminate.
Qed.

Lemma Build_rootless fuel ρ k t :
  fair ρ → entries t ≠ ∅ → rootless (entries t) →
  Build fuel ρ k t = Returns [noRootLine].
Proof.
  intros Hfair Hne Hno. unfold Build.
  destruct (Nat.eqb_spec (size (entries t)) 0) as [E|_].
  { by apply map_size_empty_inv in E. }
  destruct (findRoot_spec (rangeMap ρ k (entries t)) "")
    as [[-> _]|(e & Hin & He)]; [done|].
  apply elem_of_rangeMap in Hin; [|done]. by destruct (Hno _ _ Hin).
Qed.

(** C5 (as amended).  For every non-empty snapshot that holds no record with
    [Hops == 0], [Build] returns exactly one line, the "no root" diagnostic;
    it neither panics nor recurses, whatever the iteration order and the
    recursion budget. *)
Theorem no_root_gives_one_diagnostic_line
    (fuel : nat) (ρ : RangeOrder) (k : nat) (t : LinkTree) :
  fair ρ → entries t ≠ ∅ → rootless (entries t) →
  Build fuel ρ k t = Returns [noRootLine].
Proof. intros. by apply Build_rootless. Qed.

Lemma no_root_one_server :
  Build 0 reversed 7 (collect [mkReply "a.net" "hub.net" 1 "A"])
  = Returns [noRootLine].
Proof.
  apply (no_root_gives_one_diagnostic_line 0 reversed 7).
  - intros n l. apply reverse_Permutation.
  - vm_compute. discriminate.
  - compute_done.
Defined.

(** C5 as stated fails: the snapshot without records holds no record with
    [Hops == 0], and [Build] returns no line at all. *)
Lemma no_root_no_line_when_empty :
  rootless (entries NewLinkTree) ∧
  Build 1 inOrder 0 NewLinkTree = Returns [] ∧
  Build 1 inOrder 0 NewLinkTree ≠ Returns [noRootLine].
Proof.
  split; [apply map_Forall_empty|]. split; [reflexivity|]. discriminate.
Qed.

(** C10 (as amended).  [Build] on a snapshot holding no records returns the
    empty list of lines.  When [Build] returns the single "no root"
    diagnostic line, the snapshot is not empty, and either it holds no record
    with [Hops == 0] or its record with the empty server name has
    [Hops == 0]. *)
Theorem empty_snapshot_gives_no_line
    (fuel : nat) (ρ : RangeOrder) (k : nat) (t : LinkTree) :
  fair ρ →
  (entries t = ∅ → Build fuel ρ k t = Returns []) ∧
  (Build fuel ρ k t = Returns [noRootLine] →
     entries t ≠ ∅ ∧
     (rootless (entries t) ∨ ∃ e, entries t !! "" = Some e ∧ Hops e = 0)).
Proof.
  intros Hfair. split.
  { intros E. unfold Build. by rewrite E. }
  rewrite Build_walk by done.
  destruct (Nat.eqb_spec (size (entries t)) 0) as [E|Hsize]; [done|].
  cbv zeta. intros HB. split.
  { intros E. rewrite E in Hsize. by rewrite map_size_empty in Hsize. }
  destruct (findRoot_spec (rangeMap ρ k (entries t)) "")
    as [[_ Hno]|(e & Hin & He)].
  { left. intros s e Hs. apply (Hno s e). by apply elem_of_rangeMap. }
  apply elem_of_rangeMap in Hin; [|done]. right.
  destruct (String.eqb_spec (findRoot (rangeMap ρ k (entries t)) "") "")
    as [E|_].
  { rewrite E in Hin. eauto. }
  exfalso.
  destruct (walk fuel (entries t) _) as [sub|]; [|done].
  apply renderLines_spec in HB as (out & Hl & _ & Hout).
  destruct (Hout 0%nat _ eq_refl) as (e' & He' & Hline).
  simpl in Hl. subst out. rewrite Hin in He'. injection He' as <-.
  injection Hline as Hline. unfold formatLine in Hline.
  rewrite He, Z.eqb_refl in Hline.
  by destruct (sprintfNode_not_diagnostic e).
Qed.

Lemma empty_snapshot_no_line_witness :
  Build 3 inOrder 0 NewLinkTree = Returns [] ∧
  (rootless (entries (collect [mkReply "a.net" "hub.net" 1 "A"])) ∨
   ∃ e, entries (collect [mkReply "a.net" "hub.net" 1 "A"]) !! "" = Some e
        ∧ Hops e = 0).
Proof.
  split.
  - apply (empty_snapshot_gives_no_line 3 inOrder 0 NewLinkTree).
    + intros n l. reflexivity.
    + reflexivity.
  - apply (empty_snapshot_gives_no_line 3 inOrder 0
             (collect [mkReply "a.net" "hub.net" 1 "A"])).
    + intros n l. reflexivity.
    + reflexivity.
Defined.

(** C10 as stated fails in its second half: the snapshot [unnamedRoot] is not
    empty and holds a record with [Hops == 0], yet [Build] returns the
    diagnostic line. *)
Lemma diagnostic_despite_root :
  Build 1 inOrder 0 (collect unnamedRoot) = Returns [noRootLine] ∧
  entries (collect unnamedRoot) ≠ ∅ ∧
  ¬ rootless (entries (collect unnamedRoot)).
Proof.
  split; [reflexivity|]. split; [vm_compute; discriminate|].
  intros H. by apply (H "" (mkLinkEntry "" "" 0 "Hub")).
Qed.

(** C3.  Whenever [Build] renders a tree, its lines render the builder's
    ordered sequence level by level: the line of a node with [Hops == 0] is
    "<server> (<hops>) <description>"; the line of any other node is, for the
    levels 1 .. hops-1 in turn, "   |" when some entry still to be rendered
    has [Hops] equal to level+1 and four spaces otherwise, then "|_ ", then
    "<server> (<hops>) <description>". *)
Theorem build_renders_by_levels
    (fuel : nat) (ρ : RangeOrder) (k : nat) (t : LinkTree) (lines : list string) :
  Build fuel ρ k t = Returns lines →
  entries t ≠ ∅ →
  findRoot (rangeMap ρ k (entries t)) "" ≠ "" →
  ∃ ordered k',
    sortHierarchically fuel ρ t (findRoot (rangeMap ρ k (entries t)) "") (S k)
    = Some (ordered, k') ∧
    rendersByLevels t ordered lines.
Proof.
  unfold Build. intros HB Hne Hroot.
  destruct (Nat.eqb_spec (size (entries t)) 0) as [E|_].
  { by apply map_size_empty_inv in E. }
  cbv zeta in HB. apply String.eqb_neq in Hroot. rewrite Hroot in HB.
  destruct (sortHierarchically _ _ _ _ _) as [[ordered k']|]; [|done].
  exists ordered, k'. split; [done|].
  apply renderLines_spec in HB as (out & -> & Hlen & Hout).
  rewrite app_nil_l. split; [done|]. intros i server Hi.
  destruct (Hout i server Hi) as (e & He & Hline).
  exists e, (λ level, hasMoreAtLevel t (level + 1) (drop (S i) ordered)).
  split; [done|]. split.
  - intros level. apply hasMoreAtLevel_spec.
  - by rewrite Hline, formatLine_lineSpec.
Qed.

Lemma build_renders_four_servers :
  ∃ ordered k',
    sortHierarchically 5 inOrder (collect fourServers) "hub.net" 1
    = Some (ordered, k') ∧
    rendersByLevels (collect fourServers) ordered
      ["hub.net (0) Hub"; "|_ a.net (1) A"; "    |_ c.net (2) C";
       "|_ b.net (1) B"].
Proof.
  apply (build_renders_by_levels 5 inOrder 0 (collect fourServers)).
  - vm_compute. reflexivity.
  - vm_compute. discriminate.
  - vm_compute. discriminate.
Defined.

(** ** Short names *)

Lemma prefix_dot c s : String.prefix "." (String c s) = Ascii.eqb c ".".
Proof.
  cbn [String.prefix]. destruct (ascii_dec "." c) as [<-|H]; [by destruct s|].
  symmetry. apply Ascii.eqb_neq. congruence.
Qed.

Lemma index_from_dot i c s :
  index_from i (String c s) "."
  = if Ascii.eqb c "." then i else index_from (i + 1) s ".".
Proof. cbn [index_from]. by rewrite prefix_dot. Qed.

Lemma index_dot (s : string) :
  ∀ i, 0 ≤ i →
    (index_from i s "." = -1 ∧ beforeDot s = s) ∨
    (i ≤ index_from i s "." ∧
     slice_to (Z.to_nat (index_from i s "." - i)) s = beforeDot s).
Proof.
  induction s as [|c s IH]; intros i Hi; [by left|].
  rewrite index_from_dot. cbn [beforeDot].
  destruct (Ascii.eqb c ".").
  - right. split; [lia|]. by rewrite Z.sub_diag.
  - destruct (IH (i + 1) ltac:(lia)) as [[-> Hs]|[Hle Hs]].
    + left. by rewrite Hs.
    + right. split; [lia|].
      replace (Z.to_nat (index_from (i + 1) s "." - i))
        with (S (Z.to_nat (index_from (i + 1) s "." - (i + 1)))) by lia.
      unfold slice_to in *. simpl. by rewrite Hs.
Qed.

Lemma shortName_beforeDot (server : string) :
  shortName server
  = if HasPrefix server "." then server else beforeDot server.
Proof.
  unfold shortName, Index, HasPrefix.
  destruct server as [|c s]; [done|].
  rewrite index_from_dot, prefix_dot. cbn [beforeDot].
  destruct (Ascii.eqb c "."); [done|].
  destruct (index_dot s 1 ltac:(lia)) as [[E Hs]|[Hle Hs]].
  - change (0 + 1) with 1. rewrite E. simpl. by rewrite Hs.
  - change (0 + 1) with 1.
    destruct (Z.ltb_spec 0 (index_from 1 s ".")) as [_|?]; [|lia].
    replace (Z.to_nat (index_from 1 s "."))
      with (S (Z.to_nat (index_from 1 s "." - 1))) by lia.
    unfold slice_to in *. simpl. by rewrite Hs.
Qed.

(** C4 (as amended).  [GetLinkedServers] returns one name for every held
    record, in the iteration order of the map: the server name up to and
    excluding its first dot when the name does not begin with a dot (the whole
    name when it has no dot), and the name unchanged when its first byte is
    the dot. *)
Theorem linked_servers_are_short_names
    (ρ : RangeOrder) (k : nat) (t : LinkTree) :
  fair ρ →
  GetLinkedServers ρ k t
  = (λ server, if HasPrefix server "." then server else beforeDot server)
      <$> (rangeMap ρ k (entries t)).*1
  ∧ (rangeMap ρ k (entries t)).*1 ≡ₚ (map_to_list (entries t)).*1.
Proof.
  intros Hfair. split.
  - unfold GetLinkedServers. rewrite linked_loop.
    apply list_fmap_ext. intros i s _. apply shortName_beforeDot.
  - unfold rangeMap. by rewrite (Hfair k (map_to_list (entries t))).
Qed.

Lemma linked_servers_of_two :
  GetLinkedServers reversed 0
    (collect [mkReply "hub.dal.net" "hub.dal.net" 0 "Hub";
              mkReply "server1" "hub.dal.net" 1 "S"])
  = (λ server, if HasPrefix server "." then server else beforeDot server)
      <$> (rangeMap reversed 0
             (entries (collect [mkReply "hub.dal.net" "hub.dal.net" 0 "Hub";
                                mkReply "server1" "hub.dal.net" 1 "S"]))).*1
  ∧ (rangeMap reversed 0
       (entries (collect [mkReply "hub.dal.net" "hub.dal.net" 0 "Hub";
                          mkReply "server1" "hub.dal.net" 1 "S"]))).*1
    ≡ₚ (map_to_list
          (entries (collect [mkReply "hub.dal.net" "hub.dal.net" 0 "Hub";
                             mkReply "server1" "hub.dal.net" 1 "S"]))).*1.
Proof.
  apply (linked_servers_are_short_names reversed 0).
  intros n l. apply reverse_Permutation.
Defined.

(** C4 as stated fails for a name whose first byte is the dot: the text before
    the first dot of ".net" is empty, and [GetLinkedServers] returns ".net". *)
Lemma leading_dot_is_kept :
  GetLinkedServers inOrder 0 (collect [mkReply ".net" "hub.net" 1 "X"])
  = [".net"] ∧
  GetLinkedServers inOrder 0 (collect [mkReply ".net" "hub.net" 1 "X"])
  ≠ [beforeDot ".net"].
Proof. split; [reflexivity|]. vm_compute. discriminate. Qed.

(** ** Reconciliation *)

Section ReconcilerFacts.
Variable ToLower : string → string.

Lemma linkedSet_lookup (linked : list string) (acc : gmap string bool) x :
  foldl (λ set s, <[ToLower s := true]> set) acc linked !! x
  = if decide (x ∈ ToLower <$> linked) then Some true else acc !! x.
Proof.
  revert acc. induction linked as [|s linked IH]; intros acc; cbn [foldl].
  - rewrite fmap_nil, decide_False; [done|]. by intros ?%elem_of_nil.
  - rewrite IH, fmap_cons.
    destruct (decide (x ∈ ToLower <$> linked)) as [Hin|Hin].
    + rewrite decide_True; [done|]. by right.
    + destruct (decide (x = ToLower s)) as [->|Hne].
      * rewrite lookup_insert_eq, decide_True; [done|]. by left.
      * rewrite lookup_insert_ne by done. rewrite decide_False; [done|].
        by intros [?|?]%elem_of_cons.
Qed.

Lemma CompareToMap_missingOf ρ k t rmap :
  fair ρ →
  CompareToMap ToLower ρ k t rmap
  = (length (ServerList rmap), size (entries t),
     missingOf ToLower (map_to_list (entries t)).*1 (ServerList rmap)).
Proof.
  intros Hfair. unfold CompareToMap, GetLinkedServers. cbv zeta.
  rewrite linked_loop. f_equal; [f_equal|].
  - rewrite !length_fmap. unfold rangeMap.
    by rewrite (Hfair k (map_to_list (entries t))), length_map_to_list.
  - set (set := foldl _ ∅ _).
    rewrite (foldl_collect
               (λ short, negb (default false (set !! ToLower short)))
               shortName [] (ServerList rmap)).
    rewrite app_nil_l. unfold missingOf. apply list_filter_iff. intros short.
    unfold set. rewrite linkedSet_lookup, lookup_empty.
    assert (ToLower short ∈ ToLower <$> (shortName <$> (rangeMap ρ k (entries t)).*1)
            ↔ ToLower short ∈ ToLower <$> (shortName <$> (map_to_list (entries t)).*1))
      as Hiff.
    { unfold rangeMap. by rewrite (Hfair k (map_to_list (entries t))). }
    destruct (decide (ToLower short ∈ _)) as [Hin|Hin]; simpl.
    + split; [done|]. intros H. by apply H, Hiff.
    + split; [|done]. intros _ H. by apply Hin, Hiff.
Qed.

Lemma missingOf_same_names (names names' catalog : list string) :
  (∀ x, x ∈ names ↔ x ∈ names') →
  missingOf ToLower names catalog = missingOf ToLower names' catalog.
Proof.
  intros Hiff. unfold missingOf. apply list_filter_iff. intros short.
  rewrite <-!list_fmap_compose, !list_elem_of_fmap.
  split; intros H (y & Hy & Hin); apply H; exists y; split; try done;
    by apply Hiff.
Qed.

Lemma missingOf_difference (names catalog : list string) :
  (list_to_set (ToLower <$> missingOf ToLower names catalog) : gset string)
  = list_to_set (ToLower <$> (shortName <$> catalog))
    ∖ list_to_set (ToLower <$> (shortName <$> names)).
Proof.
  apply set_eq. intros x.
  rewrite elem_of_difference, !elem_of_list_to_set.
  unfold missingOf. rewrite !list_elem_of_fmap. split.
  - intros (short & -> & [Hno Hin]%list_elem_of_filter). split; [by eauto|].
    intros H. apply Hno. by apply list_elem_of_fmap.
  - intros [(short & -> & Hin) Hno]. exists short. split; [done|].
    apply list_elem_of_filter. split; [|done].
    intros H. apply Hno. by apply list_elem_of_fmap.
Qed.

End ReconcilerFacts.

Lemma elem_of_collect_names rs s :
  s ∈ (map_to_list (entries (collect rs))).*1 ↔ s ∈ r_server <$> rs.
Proof.
  rewrite list_elem_of_fmap. unfold collect.
  induction rs as [|r rs IH] using rev_ind.
  - simpl. rewrite map_to_list_empty. split.
    + by intros (x & _ & ?%elem_of_nil).
    + by intros ?%elem_of_nil.
  - rewrite foldl_app, fmap_app, elem_of_app. simpl.
    rewrite <-IH, list_elem_of_singleton. clear IH. split.
    + intros ([s' e] & -> & He%elem_of_map_to_list). simpl.
      destruct (decide (s' = r_server r)) as [->|Hne]; [by right|].
      left. rewrite lookup_insert_ne in He by done.
      exists (s', e). split; [done|]. by apply elem_of_map_to_list.
    + intros [([s' e] & -> & He%elem_of_map_to_list)| ->]; simpl.
      * destruct (decide (s' = r_server r)) as [->|Hne].
        -- eexists (_, _). split; [done|].
           apply elem_of_map_to_list. apply lookup_insert_eq.
        -- exists (s', e). split; [done|]. apply elem_of_map_to_list.
           by rewrite lookup_insert_ne.
      * eexists (_, _). split; [done|].
        apply elem_of_map_to_list. apply lookup_insert_eq.
Qed.

Lemma collect_names_perm rs rs' :
  rs' ≡ₚ rs →
  ∀ x, x ∈ (map_to_list (entries (collect rs'))).*1
     ↔ x ∈ (map_to_list (entries (collect rs))).*1.
Proof. intros Hp x. by rewrite !elem_of_collect_names, Hp. Qed.

Lemma collect_size_perm rs rs' :
  rs' ≡ₚ rs → size (entries (collect rs')) = size (entries (collect rs)).
Proof.
  intros Hp. rewrite <-!length_map_to_list.
  rewrite <-(length_fmap fst (map_to_list (entries (collect rs')))).
  rewrite <-(length_fmap fst (map_to_list (entries (collect rs)))).
  apply Permutation_length, NoDup_Permutation;
    [apply NoDup_fst_map_to_list..|by apply collect_names_perm].
Qed.

(** C2 (as amended).  [CompareToMap] returns as total the length of the
    catalog's ordered server-name list (duplicates included), as linked count
    the number of records held by the snapshot, and a missing list whose
    lower-cased members are exactly the lower-cased stripped catalog names
    minus the lower-cased stripped names of the held records, where stripping
    takes the text before the first dot of a name that does not begin with a
    dot and leaves a name that begins with a dot whole; the whole result is
    the same for every arrival order of the replies and every iteration order
    of the map. *)
Theorem reconcile_counts_and_missing
    (ToLower : string → string) (ρ : RangeOrder) (k : nat)
    (rs : list LinkReply) (rmap : Map) :
  fair ρ →
  ∃ missing,
    CompareToMap ToLower ρ k (collect rs) rmap
    = (length (ServerList rmap), size (entries (collect rs)), missing) ∧
    (list_to_set (ToLower <$> missing) : gset string)
    = list_to_set
        (ToLower <$>
           ((λ name, if HasPrefix name "." then name else beforeDot name)
              <$> ServerList rmap))
      ∖ list_to_set
          (ToLower <$>
             ((λ name, if HasPrefix name "." then name else beforeDot name)
                <$> (map_to_list (entries (collect rs))).*1)) ∧
    ∀ rs' ρ' k', fair ρ' → rs' ≡ₚ rs →
      CompareToMap ToLower ρ' k' (collect rs') rmap
      = CompareToMap ToLower ρ k (collect rs) rmap.
Proof.
  intros Hfair. eexists. split; [by apply CompareToMap_missingOf|].
  split.
  - assert (∀ names : list string,
              (λ name, if HasPrefix name "." then name else beforeDot name)
                <$> names = shortName <$> names) as E.
    { intros names. apply list_fmap_ext. intros i name _.
      symmetry. apply shortName_beforeDot. }
    rewrite !E. apply missingOf_difference.
  - intros rs' ρ' k' Hfair' Hp. rewrite !CompareToMap_missingOf by done.
    rewrite (collect_size_perm _ _ Hp).
    by rewrite (missingOf_same_names ToLower _ _ _ (collect_names_perm _ _ Hp)).
Qed.

Lemma reconcile_hub_a_b_z :
  ∃ missing,
    CompareToMap ToLower_ascii reversed 0 (collect linkedHubAB) catalogHubABZ
    = (length (ServerList catalogHubABZ), size (entries (collect linkedHubAB)),
       missing) ∧
    (list_to_set (ToLower_ascii <$> missing) : gset string)
    = list_to_set
        (ToLower_ascii <$>
           ((λ name, if HasPrefix name "." then name else beforeDot name)
              <$> ServerList catalogHubABZ))
      ∖ list_to_set
          (ToLower_ascii <$>
             ((λ name, if HasPrefix name "." then name else beforeDot name)
                <$> (map_to_list (entries (collect linkedHubAB))).*1)) ∧
    ∀ rs' ρ' k', fair ρ' → rs' ≡ₚ linkedHubAB →
      CompareToMap ToLower_ascii ρ' k' (collect rs') catalogHubABZ
      = CompareToMap ToLower_ascii reversed 0 (collect linkedHubAB) catalogHubABZ.
Proof.
  apply (reconcile_counts_and_missing ToLower_ascii reversed 0
           linkedHubAB catalogHubABZ).
  intros n l. apply reverse_Permutation.
Defined.

(** C2 as stated fails for names whose first byte is the dot: the text before
    the first dot of ".x" and of ".x.net" is empty, so the difference of the
    stripped names is empty, and [CompareToMap] reports ".x" as missing. *)
Lemma dotted_names_stay_whole :
  CompareToMap ToLower_ascii inOrder 0
    (collect [mkReply ".x.net" ".x.net" 0 "X"]) (mkMap [] ∅ [".x"])
  = (1%nat, 1%nat, [".x"]) ∧
  (list_to_set (ToLower_ascii <$> (beforeDot <$> [".x"])) : gset string)
    ∖ list_to_set (ToLower_ascii <$> (beforeDot <$> [".x.net"]))
  = ∅ ∧
  (list_to_set (ToLower_ascii <$> (beforeDot <$> [".x"])) : gset string) ≠ ∅ ∧
  (list_to_set (ToLower_ascii <$> [".x"]) : gset string) ≠ ∅.
Proof.
  split; [by vm_compute|]. split; [|split].
  - apply set_eq. intros x. set_solver.
  - intros H. apply (not_elem_of_empty (C:=gset string) ""). rewrite <-H.
    set_solver.
  - intros H. apply (not_elem_of_empty (C:=gset string) ".x"). rewrite <-H.
    set_solver.
Qed.

(** The scenario of the specification: catalog hub, a, b, z against linked
    hub, a, b gives total 4 and missing z. *)
Example reconcile_scenario :
  CompareToMap ToLower_ascii inOrder 0 (collect linkedHubAB) catalogHubABZ
  = (4%nat, 3%nat, ["z"]).
Proof. reflexivity. Qed.

(** ** Only the entries are read *)

Lemma hasMoreAtLevel_entries t1 t2 level remaining :
  entries t1 = entries t2 →
  hasMoreAtLevel t1 level remaining = hasMoreAtLevel t2 level remaining.
Proof.
  intros E. induction remaining as [|s rest IH]; simpl; [done|].
  by rewrite E, IH.
Qed.

Lemma formatLine_entries t1 t2 entry remaining :
  entries t1 = entries t2 →
  formatLine t1 entry remaining = formatLine t2 entry remaining.
Proof.
  intros E. rewrite !formatLine_lineSpec. unfold lineSpec.
  destruct (decide (Hops entry = 0)); [done|]. f_equal.
  apply list_fmap_ext. intros i level _.
  by rewrite (hasMoreAtLevel_entries t1 t2).
Qed.

Lemma renderLines_entries t1 t2 ordered :
  entries t1 = entries t2 →
  ∀ lines, renderLines t1 ordered lines = renderLines t2 ordered lines.
Proof.
  intros E. induction ordered as [|s rest IH]; intros lines; simpl; [done|].
  rewrite E. destruct (entries t2 !! s) as [e|]; [|done].
  by rewrite IH, (formatLine_entries t1 t2).
Qed.

(** C9.  Two sequences of replies that leave the same entries, with at most
    one record at [Hops == 0], give the same outcome of [Build] (lines, or
    exhaustion of the same recursion budget) and the same result of
    [CompareToMap] against any catalog, whatever the two iteration orders of
    the map, and the same [GetLinkedServers] under one iteration order: the
    arrival-order slice filled by [Add] is read by none of them. *)
Theorem arrival_order_is_never_read
    (ToLower : string → string) (fuel : nat) (ρ1 ρ2 : RangeOrder) (k1 k2 : nat)
    (rs1 rs2 : list LinkReply) (rmap : Map) :
  fair ρ1 → fair ρ2 →
  entries (collect rs1) = entries (collect rs2) →
  atMostOneRoot (entries (collect rs1)) →
  Build fuel ρ1 k1 (collect rs1) = Build fuel ρ2 k2 (collect rs2) ∧
  CompareToMap ToLower ρ1 k1 (collect rs1) rmap
  = CompareToMap ToLower ρ2 k2 (collect rs2) rmap ∧
  GetLinkedServers ρ1 k1 (collect rs1) = GetLinkedServers ρ1 k1 (collect rs2).
Proof.
  intros H1 H2 E Hone. split; [|split; [|by unfold GetLinkedServers; rewrite E]].
  - rewrite !Build_walk by done. rewrite <-E.
    rewrite (findRoot_fair ρ1), (findRoot_fair ρ2) by done.
    destruct (size _ =? 0)%nat; [done|]. cbv zeta.
    destruct (String.eqb _ ""); [done|].
    destruct (walk fuel _ _); [|done].
    by apply renderLines_entries.
  - rewrite !CompareToMap_missingOf by done. by rewrite E.
Qed.

Lemma four_servers_in_two_orders :
  Build 4 inOrder 0 (collect fourServers)
  = Build 4 reversed 9 (collect fourServersAgain) ∧
  CompareToMap ToLower_ascii inOrder 0 (collect fourServers) catalogHubABZ
  = CompareToMap ToLower_ascii reversed 9 (collect fourServersAgain)
      catalogHubABZ ∧
  GetLinkedServers inOrder 0 (collect fourServers)
  = GetLinkedServers inOrder 0 (collect fourServersAgain).
Proof.
  apply (arrival_order_is_never_read ToLower_ascii 4 inOrder reversed 0 9
           fourServers fourServersAgain catalogHubABZ).
  - intros n l. reflexivity.
  - intros n l. apply reverse_Permutation.
  - vm_compute. reflexivity.
  - compute_done.
Defined.

(** ** The routing-map parser *)

Section ParserFacts.
Variable TrimSpace : string → string.
Variable Fields : string → list string.

Lemma hubs_loop (tokens : list string) :
  foldl (λ hubs h, if isHub h then hubs ++ [h] else hubs) [] tokens
  = filter (λ h, isHub h) tokens.
Proof.
  etrans; [exact (foldl_collect isHub id [] tokens)|]. by rewrite list_fmap_id.
Qed.

Lemma parseLine_data (line : string) :
  skipPatterns line = false →
  Contains line ":" = true →
  TrimSpace (slice_to (Z.to_nat (Index line ":")) line) ≠ "" →
  parseLine TrimSpace Fields line
  = Some (TrimSpace (slice_to (Z.to_nat (Index line ":")) line),
          filter (λ h, isHub h)
            (Fields (TrimSpace
               (slice_from (Z.to_nat (Index line ":") + 1) line)))).
Proof.
  intros Hskip Hcolon Hname. unfold parseLine. rewrite Hskip, Hcolon.
  unfold Contains in Hcolon. apply Z.leb_le in Hcolon.
  unfold SplitN2. destruct (Z.ltb_spec (Index line ":") 0) as [?|_]; [lia|].
  cbn [nth length String.length]. apply String.eqb_neq in Hname.
  rewrite Hname. change (1 <? 2)%nat with true. cbv iota.
  by rewrite hubs_loop.
Qed.

Lemma scanLoop_snoc (texts : list string) (text : string) :
  scanLoop TrimSpace Fields (texts ++ [text])
  = scanStep TrimSpace Fields (scanLoop TrimSpace Fields texts) text.
Proof. unfold scanLoop. by rewrite foldl_app. Qed.

Lemma entriesOf_snoc (texts : list string) (text : string) :
  entriesOf TrimSpace Fields (texts ++ [text])
  = entriesOf TrimSpace Fields texts
    ++ match parseLine TrimSpace Fields (RemoveAll text "013") with
       | Some entry => [entry]
       | None => []
       end.
Proof.
  unfold entriesOf. rewrite omap_app. by f_equal.
Qed.

Lemma RemoveAll_gone (s : string) (c : ascii) : hasByte c (RemoveAll s c) = false.
Proof.
  induction s as [|x s IH]; simpl; [done|].
  destruct (Ascii.eqb x c) eqn:E; [done|]. simpl. by rewrite E, IH.
Qed.

(** The last entry for [name] among [found]. *)
Lemma last_entry_snoc (found : list (string * list string)) n h name hubs :
  (∃ before after,
     found ++ [(n, h)] = before ++ (name, hubs) :: after ∧ name ∉ after.*1)
  ↔ (name = n ∧ hubs = h) ∨
    (name ≠ n ∧ ∃ before after,
       found = before ++ (name, hubs) :: after ∧ name ∉ after.*1).
Proof.
  split.
  - intros (before & after & E & Hlast).
    destruct after as [|x after _] using rev_ind.
    + apply app_inj_tail in E as [_ [= -> ->]]. by left.
    + rewrite app_comm_cons, app_assoc in E.
      apply app_inj_tail in E as [-> <-]. right.
      rewrite fmap_app, elem_of_app in Hlast. simpl in Hlast.
      split.
      * intros ->. apply Hlast. right. by left.
      * exists before, after. split; [done|]. intros ?. apply Hlast. by left.
  - intros [[-> ->]|(Hne & before & after & -> & Hlast)].
    + exists found, []. split; [done|]. by intros ?%elem_of_nil.
    + exists before, (after ++ [(n, h)]). split.
      * by rewrite <-app_assoc.
      * rewrite fmap_app, elem_of_app. simpl.
        intros [?|?%list_elem_of_singleton]; done.
Qed.

Lemma scanLoop_invariant (texts : list string) :
  Raw (scanLoop TrimSpace Fields texts)
  = (λ text, RemoveAll text "013") <$> texts ∧
  ServerList (scanLoop TrimSpace Fields texts)
  = (entriesOf TrimSpace Fields texts).*1 ∧
  ∀ name hubs,
    Servers (scanLoop TrimSpace Fields texts) !! name = Some hubs ↔
    ∃ before after,
      entriesOf TrimSpace Fields texts = before ++ (name, hubs) :: after ∧
      name ∉ after.*1.
Proof.
  induction texts as [|text texts (IHraw & IHlist & IHmap)] using rev_ind.
  - split; [done|]. split; [done|]. intros name hubs. simpl.
    rewrite lookup_empty. split; [done|].
    intros (before & after & E & _). by destruct before.
  - rewrite scanLoop_snoc, entriesOf_snoc. unfold scanStep.
    destruct (parseLine TrimSpace Fields (RemoveAll text "013"))
      as [[n h]|]; cbn [Raw ServerList Servers].
    + split; [by rewrite IHraw, fmap_app|].
      split; [by rewrite IHlist, fmap_app|].
      intros name hubs. rewrite last_entry_snoc, <-IHmap.
      destruct (decide (name = n)) as [->|Hne].
      * rewrite lookup_insert_eq. split.
        -- intros [= ->]. by left.
        -- intros [[_ ->]|[? _]]; done.
      * rewrite lookup_insert_ne by done. split.
        -- intros ?. by right.
        -- intros [[? _]|[_ ?]]; done.
    + rewrite app_nil_r. split; [by rewrite IHraw, fmap_app|done].
Qed.

End ParserFacts.

Lemma HasPrefix_byte (h : string) (c : ascii) :
  HasPrefix h (String c "") = true ↔ beginsWith c h.
Proof.
  unfold HasPrefix, beginsWith. destruct h as [|x h]; cbn [String.prefix].
  - done.
  - destruct (ascii_dec c x) as [->|Hne].
    + split; [done|]. intros _. by destruct h.
    + split; [done|]. by intros ->.
Qed.

Lemma isHub_spec (h : string) :
  isHub h ↔ ¬ beginsWith "(" h ∧ ¬ beginsWith "=" h.
Proof.
  unfold isHub. rewrite andb_True, !negb_True, !Is_true_true.
  by rewrite !HasPrefix_byte.
Qed.

(** C7.  A scanned text whose line (carriage returns removed) matches no skip
    pattern, contains a colon and has a non-empty trimmed name before the
    first colon is stored under that name with, as uplink list, the
    whitespace-separated tokens of the text after the colon that begin with
    neither "(" nor "=", in their order; the name is appended to the ordered
    server list. *)
Theorem data_line_stores_uplinks
    (TrimSpace : string → string) (Fields : string → list string)
    (m : Map) (text : string) :
  skipPatterns (RemoveAll text "013") = false →
  Contains (RemoveAll text "013") ":" = true →
  TrimSpace (slice_to (Z.to_nat (Index (RemoveAll text "013") ":"))
               (RemoveAll text "013")) ≠ "" →
  ∃ name tokens uplinks,
    name = TrimSpace (slice_to (Z.to_nat (Index (RemoveAll text "013") ":"))
                        (RemoveAll text "013")) ∧
    tokens = Fields (TrimSpace
               (slice_from (Z.to_nat (Index (RemoveAll text "013") ":") + 1)
                  (RemoveAll text "013"))) ∧
    uplinks = filter (λ h, ¬ beginsWith "(" h ∧ ¬ beginsWith "=" h) tokens ∧
    Servers (scanStep TrimSpace Fields m text) !! name = Some uplinks ∧
    ServerList (scanStep TrimSpace Fields m text) = ServerList m ++ [name].
Proof.
  intros Hskip Hcolon Hname. eexists _, _, _.
  split; [reflexivity|]. split; [reflexivity|]. split; [reflexivity|].
  unfold scanStep.
  rewrite (parseLine_data TrimSpace Fields _ Hskip Hcolon Hname).
  cbn [Servers ServerList]. rewrite lookup_insert_eq. split; [|done].
  f_equal. apply list_filter_iff. intros h. apply isHub_spec.
Qed.

(** The scenario of C7: "server1: hub1 (comment) hub2". *)
Lemma server1_uplinks :
  ∃ name tokens uplinks,
    name = "server1" ∧
    tokens = ["hub1"; "(comment)"; "hub2"] ∧
    uplinks = ["hub1"; "hub2"] ∧
    Servers (scanLoop TrimSpace_ascii Fields_ascii
               ["server1: hub1 (comment) hub2"]) !! name
    = Some uplinks ∧
    ServerList (scanLoop TrimSpace_ascii Fields_ascii
                  ["server1: hub1 (comment) hub2"]) = [name].
Proof.
  destruct (data_line_stores_uplinks TrimSpace_ascii Fields_ascii
              (mkMap [] ∅ []) "server1: hub1 (comment) hub2")
    as (name & tokens & uplinks & -> & -> & -> & H1 & H2).
  - reflexivity.
  - reflexivity.
  - vm_compute. discriminate.
  - exists "server1", ["hub1"; "(comment)"; "hub2"], ["hub1"; "hub2"].
    split; [reflexivity|]. split; [reflexivity|]. split; [reflexivity|].
    split; [exact H1|exact H2].
Defined.

(** *** The scanner and the lines of a document *)

Lemma linesOf_app_line (p s : string) :
  hasByte "010" p = false → p ≠ "" →
  linesOf (p +:+ s)
  = match linesOf s with
    | [] => [p]
    | line :: rest => (p +:+ line) :: rest
    end.
Proof.
  induction p as [|c p IH]; intros Hnl Hne; [done|].
  cbn [hasByte] in Hnl. apply orb_false_elim in Hnl as [Hc Hp].
  change (String c p +:+ s) with (String c (p +:+ s)).
  cbn [linesOf]. rewrite Hc.
  destruct p as [|d p].
  - change ("" +:+ s) with s. by destruct (linesOf s).
  - rewrite IH by done. by destruct (linesOf s).
Qed.

Lemma linesOf_first_length (p s : string) (line : string) (rest : list string) :
  hasByte "010" p = false →
  linesOf (p +:+ s) = line :: rest →
  (String.length p ≤ String.length line)%nat.
Proof.
  intros Hnl. destruct p as [|c p]; [simpl; lia|].
  rewrite linesOf_app_line by done.
  destruct (linesOf s); intros [= <- _]; [done|].
  rewrite length_app_string. lia.
Qed.

Lemma scanFrom_linesOf (data : string) :
  ∀ cur n,
    hasByte "010" cur = false →
    n = Z.of_nat (String.length cur) →
    Forall (λ line, Z.of_nat (String.length line) < 65536)
           (linesOf (cur +:+ data)) →
    GoBufio.scanFrom data cur n
    = (GoBufio.dropCR <$> linesOf (cur +:+ data), false).
Proof.
  induction data as [|c data IH]; intros cur n Hnl Hn Hshort.
  - rewrite app_string_nil_r in *. cbn [GoBufio.scanFrom].
    destruct cur as [|x cur]; [by subst n|].
    destruct (Z.eqb_spec n 0) as [E|_]; [simpl in Hn; lia|].
    rewrite <-(app_string_nil_r (String x cur)) at 2.
    by rewrite linesOf_app_line.
  - cbn [GoBufio.scanFrom]. destruct (Ascii.eqb c "010") eqn:Hc.
    + apply Ascii.eqb_eq in Hc as ->.
      assert (linesOf (cur +:+ String "010" data) = cur :: linesOf data) as E.
      { destruct cur as [|x cur]; [done|].
        rewrite linesOf_app_line by done. cbn [linesOf].
        change (Ascii.eqb "010" "010") with true. cbv iota.
        by rewrite app_string_nil_r. }
      rewrite E in Hshort |- *. apply Forall_cons in Hshort as [_ Hshort].
      rewrite (IH "" 0) by done. done.
    + assert ((cur +:+ String c "") +:+ data = cur +:+ String c data) as E
        by (by rewrite app_string_assoc).
      assert (hasByte "010" (cur +:+ String c "") = false) as Hnl'.
      { rewrite hasByte_app, Hnl. cbn [hasByte]. by rewrite Hc. }
      assert (n + 1 = Z.of_nat (String.length (cur +:+ String c ""))) as Hn'.
      { rewrite length_app_string. simpl. lia. }
      unfold GoBufio.MaxScanTokenSize.
      destruct (Z.leb_spec (65536 - 1) n) as [Hbig|_].
      * exfalso. rewrite <-E in Hshort.
        destruct (linesOf ((cur +:+ String c "") +:+ data)) as [|line rest] eqn:El.
        -- rewrite linesOf_app_line in El by (try done; by destruct cur).
           by destruct (linesOf data).
        -- apply Forall_cons in Hshort as [Hline _].
           pose proof (linesOf_first_length _ _ _ _ Hnl' El). lia.
      * rewrite (IH _ _ Hnl' Hn') by (by rewrite E). by rewrite E.
Qed.

Lemma scan_linesOf (content : string) :
  Forall (λ line, Z.of_nat (String.length line) < 65536) (linesOf content) →
  GoBufio.scan content = (GoBufio.dropCR <$> linesOf content, false).
Proof. intros H. by apply (scanFrom_linesOf content "" 0). Qed.

Lemma RemoveAll_withoutCR (s : string) : RemoveAll s "013" = withoutCR s.
Proof.
  unfold withoutCR. induction s as [|c s IH]; [done|].
  cbn [RemoveAll String.list_ascii_of_string]. rewrite filter_cons.
  destruct (Ascii.eqb_spec c "013") as [->|Hne].
  - destruct (decide _) as [H|_]; [by destruct H|done].
  - rewrite decide_True by done. cbn [String.string_of_list_ascii].
    by rewrite IH.
Qed.

Lemma RemoveAll_dropCR (s : string) :
  RemoveAll (GoBufio.dropCR s) "013" = RemoveAll s "013".
Proof.
  induction s as [|c s IH]; [done|]. destruct s as [|d s].
  - cbn [GoBufio.dropCR RemoveAll].
    destruct (Ascii.eqb c "013") eqn:E; cbn [RemoveAll]; by rewrite ?E.
  - change (GoBufio.dropCR (String c (String d s)))
      with (String c (GoBufio.dropCR (String d s))).
    cbn [RemoveAll] in *. by rewrite IH.
Qed.

Lemma prefix_one (c x : ascii) (s : string) :
  String.prefix (String c "") (String x s) = Ascii.eqb x c.
Proof.
  cbn [String.prefix]. destruct (ascii_dec c x) as [<-|H].
  - rewrite Ascii.eqb_refl. by destruct s.
  - symmetry. apply Ascii.eqb_neq. congruence.
Qed.

Lemma index_byte (c : ascii) (s : string) :
  ∀ i, 0 ≤ i →
    if hasByte c s then
      i ≤ index_from i s (String c "") ∧
      slice_to (Z.to_nat (index_from i s (String c "") - i)) s = beforeByte c s ∧
      slice_from (Z.to_nat (index_from i s (String c "") - i) + 1) s
      = afterByte c s
    else index_from i s (String c "") = -1.
Proof.
  induction s as [|x s IH]; intros i Hi; [done|].
  cbn [hasByte beforeByte afterByte index_from]. rewrite prefix_one.
  destruct (Ascii.eqb x c); cbn [orb].
  - rewrite Z.sub_diag. done.
  - specialize (IH (i + 1) ltac:(lia)). destruct (hasByte c s); [|done].
    destruct IH as (Hle & Hb & Ha). split; [lia|].
    replace (Z.to_nat (index_from (i + 1) s (String c "") - i))
      with (S (Z.to_nat (index_from (i + 1) s (String c "") - (i + 1))))
      by lia.
    split.
    + unfold slice_to in *. simpl. by rewrite Hb.
    + cbn [Nat.add slice_from]. exact Ha.
Qed.

Section DataLines.
Variable TrimSpace : string → string.
Variable Fields : string → list string.

Lemma parseLine_dataLine (line : string) :
  parseLine TrimSpace Fields line = dataLine TrimSpace Fields line.
Proof.
  unfold dataLine. destruct (skipPatterns line) eqn:Hskip.
  { unfold parseLine. by rewrite Hskip. }
  pose proof (index_byte ":" line 0 ltac:(lia)) as H.
  fold (Index line ":") in H. rewrite Z.sub_0_r in H.
  destruct (hasByte ":" line).
  - destruct H as (Hle & Hb & Ha).
    assert (Contains line ":" = true) as Hc by (by apply Z.leb_le).
    destruct (decide (TrimSpace (beforeByte ":" line) = "")) as [E|E].
    + unfold parseLine. rewrite Hskip, Hc. unfold SplitN2.
      destruct (Z.ltb_spec (Index line ":") 0) as [?|_]; [lia|].
      cbn [nth]. rewrite Hb, E. done.
    + rewrite <-Hb in E.
      rewrite (parseLine_data TrimSpace Fields line Hskip Hc E).
      rewrite Hb, Ha. do 2 f_equal.
      apply list_filter_iff. intros h. apply isHub_spec.
  - unfold parseLine, Contains. rewrite Hskip, H. done.
Qed.

Lemma entriesOf_dataOf (lines : list string) :
  entriesOf TrimSpace Fields (GoBufio.dropCR <$> lines)
  = dataOf TrimSpace Fields lines.
Proof.
  unfold entriesOf, dataOf. induction lines as [|l lines IH]; [done|].
  rewrite fmap_cons. cbn [omap list_omap] in *.
  rewrite RemoveAll_dropCR, RemoveAll_withoutCR, parseLine_dataLine.
  destruct (dataLine _ _ _); by rewrite <-IH.
Qed.

End DataLines.

(** C8 (as amended).  For every document whose lines are all shorter than
    65536 bytes and that is read without an I/O error, [LoadMap] returns
    without error a map that keeps one raw line per input line, carriage
    returns removed, so that the raw-line list is as long as the document has
    lines; whose ordered server list holds the names of the data lines in
    line order, duplicates included; and whose name-to-uplinks mapping holds
    for each name the uplinks of its last data line. *)
Theorem parser_keeps_lines_and_order
    (TrimSpace : string → string) (Fields : string → list string)
    (content : string) :
  Forall (λ line, Z.of_nat (String.length line) < 65536) (linesOf content) →
  ∃ m,
    LoadMap TrimSpace Fields (rmapHolding content) = (Some m, false) ∧
    length (Raw m) = length (linesOf content) ∧
    Raw m = withoutCR <$> linesOf content ∧
    Forall (λ line, hasByte "013" line = false) (Raw m) ∧
    ServerList m = (dataOf TrimSpace Fields (linesOf content)).*1 ∧
    ∀ name hubs,
      Servers m !! name = Some hubs ↔
      ∃ before after,
        dataOf TrimSpace Fields (linesOf content)
        = before ++ (name, hubs) :: after ∧
        name ∉ after.*1.
Proof.
  intros Hshort. unfold rmapHolding. rewrite scan_linesOf by done.
  exists (scanLoop TrimSpace Fields (GoBufio.dropCR <$> linesOf content)).
  split; [done|].
  destruct (scanLoop_invariant TrimSpace Fields
              (GoBufio.dropCR <$> linesOf content)) as (Hraw & Hlist & Hmap).
  rewrite entriesOf_dataOf in Hlist, Hmap.
  assert (Raw (scanLoop TrimSpace Fields (GoBufio.dropCR <$> linesOf content))
          = withoutCR <$> linesOf content) as Hraw'.
  { rewrite Hraw, <-list_fmap_compose. apply list_fmap_ext. intros i l _.
    cbn. by rewrite RemoveAll_dropCR, RemoveAll_withoutCR. }
  split; [by rewrite Hraw', length_fmap|]. split; [done|].
  split; [|by split].
  rewrite Hraw. apply Forall_fmap, Forall_forall. intros text _.
  apply RemoveAll_gone.
Qed.

Lemma parser_keeps_lines_of_document :
  ∃ m,
    LoadMap TrimSpace_ascii Fields_ascii (rmapHolding repeatedNameDocument)
    = (Some m, false) ∧
    length (Raw m) = length (linesOf repeatedNameDocument) ∧
    Raw m = withoutCR <$> linesOf repeatedNameDocument ∧
    Forall (λ line, hasByte "013" line = false) (Raw m) ∧
    ServerList m
    = (dataOf TrimSpace_ascii Fields_ascii
         (linesOf repeatedNameDocument)).*1 ∧
    ∀ name hubs,
      Servers m !! name = Some hubs ↔
      ∃ before after,
        dataOf TrimSpace_ascii Fields_ascii (linesOf repeatedNameDocument)
        = before ++ (name, hubs) :: after ∧
        name ∉ after.*1.
Proof.
  apply (parser_keeps_lines_and_order TrimSpace_ascii Fields_ascii
           repeatedNameDocument).
  vm_compute. repeat constructor.
Defined.

(** The lines, the data lines and the map of that document. *)
Example repeated_name_document :
  linesOf repeatedNameDocument
  = ["Tier 1 Hubs"; "server1: hub1 hub2" +:+ String "013" ""; "";
     "server2: hub1"; "server1: =x hub9"] ∧
  dataOf TrimSpace_ascii Fields_ascii (linesOf repeatedNameDocument)
  = [("server1", ["hub1"; "hub2"]); ("server2", ["hub1"]);
     ("server1", ["hub9"])] ∧
  LoadMap TrimSpace_ascii Fields_ascii (rmapHolding repeatedNameDocument)
  = (Some (mkMap ["Tier 1 Hubs"; "server1: hub1 hub2"; "";
                  "server2: hub1"; "server1: =x hub9"]
                 (<["server1" := ["hub9"]]> (<["server2" := ["hub1"]]> ∅))
                 ["server1"; "server2"; "server1"]),
     false).
Proof. by vm_compute. Qed.

Lemma scanFrom_too_long (k : nat) (c : ascii) (rest : string) :
  ∀ cur n,
    Ascii.eqb c "010" = false → (1 ≤ k)%nat → 0 ≤ n →
    65536 ≤ n + Z.of_nat k →
    GoBufio.scanFrom (repeatByte k c +:+ rest) cur n = ([], true).
Proof.
  induction k as [|k IH]; intros cur n Hc Hk Hn Hlen; [lia|].
  change (repeatByte (S k) c +:+ rest) with (String c (repeatByte k c +:+ rest)).
  cbn [GoBufio.scanFrom]. rewrite Hc. unfold GoBufio.MaxScanTokenSize.
  destruct (Z.leb_spec (65536 - 1) n); [done|].
  apply IH; try done; lia.
Qed.

(** C8 as stated fails for a document with a line of 65536 bytes: the
    scanner stops at that line, so of the three lines of the document only the
    first is kept, and [LoadMap] returns the map together with an error. *)
Lemma long_line_stops_the_parser :
  length (linesOf longLineDocument) = 3%nat ∧
  ∃ m,
    LoadMap TrimSpace_ascii Fields_ascii (rmapHolding longLineDocument)
    = (Some m, true) ∧
    Raw m = ["a: b"] ∧ ServerList m = ["a"].
Proof.
  split; [vm_compute; reflexivity|].
  assert (GoBufio.scan longLineDocument = (["a: b"], true)) as E.
  { assert (∀ long, GoBufio.scan ("a: b" +:+ String "010" long)
                    = ("a: b" :: (GoBufio.scanFrom long "" 0).1,
                       (GoBufio.scanFrom long "" 0).2)) as Hhead.
    { intros long. unfold GoBufio.scan, String.app. simpl.
      by destruct (GoBufio.scanFrom long "" 0). }
    unfold longLineDocument. rewrite Hhead.
    rewrite scanFrom_too_long; [done|done|lia|lia|lia]. }
  unfold rmapHolding. rewrite E. eexists. split; [reflexivity|].
  split; reflexivity.
Qed.

(** A document with a repeated name: both occurrences stay in the ordered
    list, the later uplinks win. *)
Example repeated_name :
  LoadMap TrimSpace_ascii Fields_ascii
    (Opens ["Tier 1 Hubs"; "server1: hub1 hub2"; "";
            "server2: hub1"; "server1: =x hub9"] false)
  = (Some (mkMap ["Tier 1 Hubs"; "server1: hub1 hub2"; "";
                  "server2: hub1"; "server1: =x hub9"]
                 (<["server1" := ["hub9"]]> (<["server2" := ["hub1"]]> ∅))
                 ["server1"; "server2"; "server1"]),
     false).
Proof. by vm_compute. Qed.

(** * Further properties of the code *)

(** ** links.go: the collected entries *)

Lemma collect_snoc rs r : collect (rs ++ [r]) = AddReply (collect rs) r.
Proof. unfold collect. by rewrite foldl_app. Qed.

(** X1.  [Add] overwrites and logs: after any sequence of replies, the entry
    held for a server name is the record of the last reply for that name (no
    entry when there was none), and the arrival-order slice lists the server
    name of every reply, repeats included. *)
Theorem collect_last_write_wins (rs : list LinkReply) (s : string) :
  entries (collect rs) !! s
  = (λ r, mkLinkEntry (r_server r) (r_hub r) (r_hops r) (r_description r))
      <$> last (filter (λ r, r_server r = s) rs)
  ∧ order (collect rs) = r_server <$> rs.
Proof.
  induction rs as [|r rs [IHe IHo]] using rev_ind; [done|].
  rewrite collect_snoc, filter_app, fmap_app. cbn [AddReply Add entries order].
  split; [|by rewrite IHo].
  rewrite filter_cons, filter_nil.
  destruct (decide (r_server r = s)) as [<-|Hne].
  - by rewrite lookup_insert_eq, last_snoc.
  - by rewrite lookup_insert_ne, app_nil_r.
Qed.

(** ** links.go: what the walk lists *)

Lemma walk_held m fuel :
  keyed m →
  ∀ q sub, walk fuel m q = Some sub → Forall (λ s, is_Some (m !! s)) sub.
Proof.
  intros Hk. induction fuel as [|fuel IH]; intros q sub Hw; [done|].
  apply walk_S in Hw as (blocks & Hb & ->).
  assert (Forall (λ c, childOf m q c) (kids m q)) as Hall.
  { apply Forall_forall. intros c. by apply elem_of_kids. }
  induction Hb as [|c b cs blocks (l & Hl & ->) Hb IHb]; simpl; [constructor|].
  apply Forall_cons in Hall as [Hc Hall].
  constructor; [by eapply child_held|].
  apply Forall_app. split; [by eapply IH|by apply IHb].
Qed.

Lemma walk_lists_descendants m fuel :
  keyed m →
  ∀ q sub, walk fuel m q = Some sub →
    ∀ s, s ∈ sub ↔ ∃ c, childOf m q c ∧ upto m s c.
Proof.
  intros Hk. induction fuel as [|fuel IH]; intros q sub Hw s; [done|].
  apply walk_S in Hw as (blocks & Hb & ->).
  transitivity (∃ c, c ∈ kids m q ∧ upto m s c).
  2:{ split; intros (c & Hc & Hs); exists c; split; try done;
        by apply (elem_of_kids m q c Hk). }
  induction Hb as [|c b cs blocks (l & Hl & ->) Hb IHb]; simpl.
  - split; [by intros ?%elem_of_nil|]. by intros (c & ?%elem_of_nil & _).
  - rewrite elem_of_cons, elem_of_app, IHb, (IH c l Hl s). split.
    + intros [->|[(c' & Hc' & Hs)|(c' & Hc' & Hs)]].
      * exists c. split; [left|constructor].
      * exists c. split; [left|].
        eapply upto_trans; [done|]. eapply upto_step; [done|constructor].
      * exists c'. split; [by right|done].
    + intros (c' & [->|Hc']%elem_of_cons & Hs).
      * destruct (decide (s = c)) as [->|Hne]; [by left|].
        right. left. by apply upto_first_child.
      * right. right. eauto.
Qed.

(** X2.  [Build] never dereferences a missing entry: on every collected
    snapshot, for every iteration order of the map and every recursion
    budget, it returns lines or exhausts the budget, and never panics. *)
Theorem Build_never_panics
    (fuel : nat) (ρ : RangeOrder) (k : nat) (rs : list LinkReply) :
  fair ρ → Build fuel ρ k (collect rs) ≠ Panics.
Proof.
  intros Hfair. rewrite Build_walk by done.
  destruct (size _ =? 0)%nat; [done|]. cbv zeta.
  destruct (String.eqb_spec (findRoot (rangeMap ρ k (entries (collect rs))) "") "")
    as [|Hroot]; [done|].
  destruct (walk fuel _ _) as [sub|] eqn:Hw; [|done].
  assert (Forall (λ s, is_Some (entries (collect rs) !! s))
            (findRoot (rangeMap ρ k (entries (collect rs))) "" :: sub)) as Hheld.
  { constructor.
    - destruct (findRoot_spec (rangeMap ρ k (entries (collect rs))) "")
        as [[E _]|(e & Hin & _)]; [done|].
      apply elem_of_rangeMap in Hin; eauto.
    - eapply walk_held; [apply keyed_collect|done]. }
  destruct (renderLines_held _ _ Hheld []) as (out & -> & _). done.
Qed.

Lemma Build_never_panics_four_servers :
  Build 2 reversed 0 (collect fourServers) ≠ Panics.
Proof.
  apply (Build_never_panics 2 reversed 0 fourServers).
  intros n l. apply reverse_Permutation.
Defined.

(** X3.  Whenever [sortHierarchically] returns, its sequence holds exactly the
    root and the names that reach the root by following hub pointers upwards:
    a record whose hub chain does not lead to the root (an orphan) is never
    listed, and nothing below the root is left out. *)
Theorem sequence_is_what_hangs_below_root
    (fuel : nat) (ρ : RangeOrder) (k k' : nat) (rs : list LinkReply)
    (root : string) (ordered : list string) :
  fair ρ →
  sortHierarchically fuel ρ (collect rs) root k = Some (ordered, k') →
  ∀ s, s ∈ ordered ↔ upto (entries (collect rs)) s root.
Proof.
  intros Hfair Hsort s. unfold sortHierarchically in Hsort.
  pose proof (sortChildren_walk ρ (collect rs) Hfair fuel root [root] k) as H.
  destruct (walk fuel (entries (collect rs)) root) as [sub|] eqn:Hw;
    [|by rewrite H in Hsort].
  destruct H as [k'' H]. rewrite H in Hsort. injection Hsort as <- _.
  change ([root] ++ sub) with (root :: sub).
  rewrite elem_of_cons,
    (walk_lists_descendants _ fuel (keyed_collect rs) root sub Hw s).
  split.
  - intros [->|(c & Hc & Hs)]; [constructor|].
    eapply upto_trans; [done|]. eapply upto_step; [done|constructor].
  - intros Hs. destruct (decide (s = root)) as [->|Hne]; [by left|].
    right. by apply upto_first_child.
Qed.

(** An orphan: b.net hangs off a server that is not held. *)
Lemma orphan_is_not_listed :
  upto (entries (collect [mkReply "hub.net" "hub.net" 0 "Hub";
                          mkReply "a.net" "hub.net" 1 "A";
                          mkReply "b.net" "gone.net" 2 "B"])) "a.net" "hub.net" ∧
  ¬ upto (entries (collect [mkReply "hub.net" "hub.net" 0 "Hub";
                            mkReply "a.net" "hub.net" 1 "A";
                            mkReply "b.net" "gone.net" 2 "B"])) "b.net" "hub.net".
Proof.
  assert (fair inOrder) as Hfair by (intros n l; reflexivity).
  assert (sortHierarchically 3 inOrder
            (collect [mkReply "hub.net" "hub.net" 0 "Hub";
                      mkReply "a.net" "hub.net" 1 "A";
                      mkReply "b.net" "gone.net" 2 "B"]) "hub.net" 0
          = Some (["hub.net"; "a.net"], 2%nat)) as Hrun
    by (vm_compute; reflexivity).
  split.
  - apply (sequence_is_what_hangs_below_root 3 inOrder 0 2 _ _ _ Hfair Hrun).
    compute_done.
  - intros Hup.
    apply (sequence_is_what_hangs_below_root 3 inOrder 0 2 _ _ _ Hfair Hrun)
      in Hup.
    revert Hup. compute_done.
Defined.

(** ** links.go: cycles *)

Lemma walk_child m fuel q c sub :
  keyed m → walk fuel m q = Some sub → childOf m q c →
  ∃ fuel', (fuel' < fuel)%nat ∧ is_Some (walk fuel' m c).
Proof.
  intros Hk Hw Hc. destruct fuel as [|fuel]; [done|].
  apply walk_S in Hw as (blocks & Hb & _).
  apply (elem_of_kids m q c Hk) in Hc.
  exists fuel. split; [lia|].
  induction Hb as [|c' b cs blocks (l & Hl & _) Hb IHb];
    [by apply elem_of_nil in Hc|].
  apply elem_of_cons in Hc as [->|Hc]; eauto.
Qed.

Lemma walk_descends m s a :
  keyed m → upto m s a →
  ∀ fuel, is_Some (walk fuel m a) →
    ∃ fuel', (fuel' ≤ fuel)%nat ∧ is_Some (walk fuel' m s).
Proof.
  intros Hk. induction 1 as [s|s p a Hc Hup IH]; intros fuel Hw; [eauto|].
  destruct (IH fuel Hw) as (f1 & Hle & [sub Hsub]).
  destruct (walk_child m f1 p s sub Hk Hsub Hc) as (f2 & Hlt & Hs).
  exists f2. split; [lia|done].
Qed.

Lemma walk_on_cycle m q c :
  keyed m → childOf m q c → upto m q c → ∀ fuel, walk fuel m q = None.
Proof.
  intros Hk Hc Hup fuel. induction (lt_wf fuel) as [fuel _ IH].
  destruct (walk fuel m q) as [sub|] eqn:Hw; [|done]. exfalso.
  destruct (walk_child m fuel q c sub Hk Hw Hc) as (f1 & Hlt & Hwc).
  destruct (walk_descends m q c Hk Hup f1 Hwc) as (f2 & Hle & [sub' Hw']).
  by rewrite (IH f2) in Hw' by lia.
Qed.

(** X4.  A cycle of hub pointers below the root makes the recursion
    unbounded: when some node [q] that hangs below the root (or is the root)
    is its own descendant, [sortHierarchically] returns for no recursion
    budget, and neither does [Build] once it has found that root. *)
Theorem cycle_never_returns
    (fuel : nat) (ρ : RangeOrder) (k : nat) (rs : list LinkReply)
    (root q c : string) :
  fair ρ →
  childOf (entries (collect rs)) q c →
  upto (entries (collect rs)) q c →
  upto (entries (collect rs)) q root →
  sortHierarchically fuel ρ (collect rs) root k = None ∧
  (findRoot (rangeMap ρ k (entries (collect rs))) "" = root → root ≠ "" →
   Build fuel ρ k (collect rs) = OutOfFuel).
Proof.
  intros Hfair Hc Hcycle Hq.
  pose proof (keyed_collect rs) as Hk.
  assert (walk fuel (entries (collect rs)) root = None) as Hw.
  { destruct (walk fuel (entries (collect rs)) root) as [sub|] eqn:Hw; [|done].
    destruct (walk_descends _ q root Hk Hq fuel) as (f' & _ & [sub' Hw']); [eauto|].
    by rewrite (walk_on_cycle _ q c Hk Hc Hcycle f') in Hw'. }
  split.
  - pose proof (sortChildren_walk ρ (collect rs) Hfair fuel root [root] k) as H.
    by rewrite Hw in H.
  - intros Hroot Hname. rewrite Build_walk by done.
    destruct (Nat.eqb_spec (size (entries (collect rs))) 0) as [E|_].
    { apply map_size_empty_inv in E. destruct Hc as (e & He & _).
      rewrite E in He. by rewrite lookup_empty in He. }
    cbv zeta. rewrite Hroot. apply String.eqb_neq in Hname.
    by rewrite Hname, Hw.
Qed.

Lemma two_cycle_never_returns :
  sortHierarchically 7 inOrder (collect twoCycle) "r.net" 0 = None ∧
  Build 7 inOrder 0 (collect twoCycle) = OutOfFuel.
Proof.
  destruct (cycle_never_returns 7 inOrder 0 twoCycle "r.net" "r.net" "a.net")
    as [H1 H2].
  - intros n l. reflexivity.
  - exists (mkLinkEntry "a.net" "r.net" 1 "A"). by vm_compute.
  - apply (upto_step _ "r.net" "a.net" "a.net"); [|constructor].
    exists (mkLinkEntry "r.net" "a.net" 0 "R"). by vm_compute.
  - constructor.
  - split; [exact H1|]. apply H2; [reflexivity|discriminate].
Defined.

(** ** links.go: short names *)

Lemma index_beforeDot (s : string) : ∀ i, index_from i (beforeDot s) "." = -1.
Proof.
  induction s as [|c s IH]; intros i; [done|]. cbn [beforeDot].
  destruct (Ascii.eqb c ".") eqn:E; [done|].
  by rewrite index_from_dot, E, IH.
Qed.

(** X5.  Domain stripping is idempotent, and a stripped name holds no dot
    unless the name began with one. *)
Theorem shortName_idempotent (server : string) :
  shortName (shortName server) = shortName server ∧
  (HasPrefix server "." = false → Index (shortName server) "." = -1).
Proof.
  rewrite (shortName_beforeDot server).
  destruct (HasPrefix server ".") eqn:E; split; try done.
  - by rewrite shortName_beforeDot, E.
  - unfold shortName, Index. by rewrite index_beforeDot.
  - intros _. apply index_beforeDot.
Qed.

(** ** links.go: the rendered width *)

(** X6.  Every line of a node with [Hops] other than 0 is the node text
    (server, hops in parentheses, description) preceded by an indentation of
    four columns per level beyond the first, made of spaces and bars only,
    and by the three-column branch marker; a node with [Hops] of 1 or less
    (negative included) gets the marker alone. *)
Theorem formatLine_width (t : LinkTree) (entry : LinkEntry)
    (remaining : list string) :
  Hops entry ≠ 0 →
  ∃ indent,
    formatLine t entry remaining
    = indent +:+ "|_ " +:+ Server entry +:+ " (" +:+ pretty (Hops entry)
        +:+ ") " +:+ Description entry ∧
    String.length indent = (4 * Z.to_nat (Hops entry - 1))%nat ∧
    (∀ c, hasByte c indent = true → c = " "%char ∨ c = "|"%char) ∧
    String.length (formatLine t entry remaining)
    = (4 * Z.to_nat (Hops entry - 1) + 3
       + String.length (sprintfNode entry))%nat.
Proof.
  intros Hne. rewrite formatLine_lineSpec. unfold lineSpec.
  rewrite decide_False by done. fold (sprintfNode entry).
  set (segs := (λ level, segment (hasMoreAtLevel t (level + 1) remaining))
                 <$> seqZ 1 (Hops entry - 1)).
  assert (length segs = Z.to_nat (Hops entry - 1)) as Hlen
    by (unfold segs; by rewrite length_fmap, length_seqZ).
  assert (Forall (λ s, s = "   |" ∨ s = "    ") segs) as Hsegs.
  { unfold segs. apply Forall_fmap, Forall_forall. intros level _. cbn.
    unfold segment. destruct (hasMoreAtLevel _ _ _); [by left|by right]. }
  clearbody segs. rewrite <-Hlen. clear Hlen.
  exists (foldr String.app "" segs).
  assert (String.length (foldr String.app "" segs) = (4 * length segs)%nat)
    as Hwidth.
  { induction Hsegs as [|s segs [->| ->] _ IH]; [done|..];
      cbn [foldr length]; rewrite length_app_string, IH;
      cbn [String.length]; lia. }
  assert (∀ c, hasByte c (foldr String.app "" segs) = true →
               c = " "%char ∨ c = "|"%char) as Hbytes.
  { clear Hwidth. intros c. induction Hsegs as [|s segs Hs _ IH]; [done|].
    cbn [foldr]. rewrite hasByte_app. intros [H|H]%orb_true_iff.
    - destruct Hs as [-> | ->]; cbn [hasByte] in H;
        repeat (apply orb_true_iff in H as [H|H];
                [apply Ascii.eqb_eq in H; subst c; auto|]);
        done.
    - by apply IH. }
  assert (foldr String.app ("|_ " +:+ sprintfNode entry) segs
          = foldr String.app "" segs +:+ "|_ " +:+ sprintfNode entry) as E.
  { by rewrite foldr_app_string. }
  split; [exact E|]. split; [exact Hwidth|]. split; [exact Hbytes|].
  rewrite E, !length_app_string, Hwidth. simpl. lia.
Qed.

Lemma formatLine_width_depth_three :
  ∃ indent,
    formatLine (collect fourServers) (mkLinkEntry "d.net" "c.net" 3 "D")
      ["b.net"]
    = indent +:+ "|_ " +:+ "d.net" +:+ " (" +:+ pretty 3 +:+ ") " +:+ "D" ∧
    String.length indent = (4 * Z.to_nat (3 - 1))%nat ∧
    (∀ c, hasByte c indent = true → c = " "%char ∨ c = "|"%char) ∧
    String.length
      (formatLine (collect fourServers) (mkLinkEntry "d.net" "c.net" 3 "D")
         ["b.net"])
    = (4 * Z.to_nat (3 - 1) + 3
       + String.length (sprintfNode (mkLinkEntry "d.net" "c.net" 3 "D")))%nat.
Proof.
  apply (formatLine_width (collect fourServers)
           (mkLinkEntry "d.net" "c.net" 3 "D") ["b.net"]).
  simpl. lia.
Defined.

(** ** links.go: the missing list *)

(** X7.  The missing list of [CompareToMap] is a selection of the short
    catalog names in catalog order, repeats kept, so it is never longer than
    the total; a short catalog name is selected exactly when its lower-cased
    form is the lower-cased short name of no held record. *)
Theorem missing_keeps_catalog_order
    (ToLower : string → string) (ρ : RangeOrder) (k : nat)
    (t : LinkTree) (rmap : Map) :
  fair ρ →
  ∃ missing,
    CompareToMap ToLower ρ k t rmap
    = (length (ServerList rmap), size (entries t), missing) ∧
    missing `sublist_of` shortName <$> ServerList rmap ∧
    (length missing ≤ length (ServerList rmap))%nat ∧
    ∀ short, short ∈ missing ↔
      short ∈ shortName <$> ServerList rmap ∧
      ¬ ∃ s, is_Some (entries t !! s) ∧ ToLower (shortName s) = ToLower short.
Proof.
  intros Hfair. eexists. split; [by apply CompareToMap_missingOf|].
  unfold missingOf. split; [apply sublist_filter|]. split.
  - rewrite <-(length_fmap shortName (ServerList rmap)).
    apply sublist_length, sublist_filter.
  - intros short. rewrite list_elem_of_filter. split.
    + intros [Hno Hin]. split; [done|]. intros (s & [e He] & Hs). apply Hno.
      rewrite <-Hs, <-list_fmap_compose. apply list_elem_of_fmap.
      exists s. split; [done|]. apply list_elem_of_fmap. exists (s, e).
      split; [done|]. by apply elem_of_map_to_list.
    + intros [Hin Hno]. split; [|done]. intros H. apply Hno.
      rewrite <-list_fmap_compose in H.
      apply list_elem_of_fmap in H as (s & Hs & Hk).
      apply list_elem_of_fmap in Hk as ([s' e] & -> & He%elem_of_map_to_list).
      exists s'. split; [eauto|done].
Qed.

Lemma missing_order_scenario :
  ∃ missing,
    CompareToMap ToLower_ascii reversed 0 (collect linkedHubAB)
      (mkMap [] ∅ ["z.net"; "HUB"; "q"; "z.org"])
    = (4%nat, size (entries (collect linkedHubAB)), missing) ∧
    missing `sublist_of` shortName <$> ["z.net"; "HUB"; "q"; "z.org"] ∧
    (length missing ≤ 4)%nat ∧
    ∀ short, short ∈ missing ↔
      short ∈ shortName <$> ["z.net"; "HUB"; "q"; "z.org"] ∧
      ¬ ∃ s, is_Some (entries (collect linkedHubAB) !! s)
             ∧ ToLower_ascii (shortName s) = ToLower_ascii short.
Proof.
  apply (missing_keeps_catalog_order ToLower_ascii reversed 0
           (collect linkedHubAB) (mkMap [] ∅ ["z.net"; "HUB"; "q"; "z.org"])).
  intros n l. apply reverse_Permutation.
Defined.

(** ** The routing map: what the parser keeps and what the lookups find *)

Lemma prefix_refl (s : string) : String.prefix s s = true.
Proof.
  induction s as [|c s IH]; [done|]. cbn [String.prefix].
  by destruct (ascii_dec c c).
Qed.

Lemma last_entry_exists {A} (l : list (string * A)) (name : string) :
  name ∈ l.*1 →
  ∃ before x after, l = before ++ (name, x) :: after ∧ name ∉ after.*1.
Proof.
  induction l as [|[n x] l IH] using rev_ind; [by intros ?%elem_of_nil|].
  rewrite fmap_app, elem_of_app. simpl. intros Hin.
  destruct (decide (name = n)) as [->|Hne].
  - exists l, x, []. split; [done|]. by intros ?%elem_of_nil.
  - destruct Hin as [Hin|Hin%list_elem_of_singleton]; [|done].
    destruct (IH Hin) as (before & y & after & -> & Hlast).
    exists before, y, (after ++ [(n, x)]). split; [by rewrite <-app_assoc|].
    rewrite fmap_app, elem_of_app. simpl.
    intros [?|?%list_elem_of_singleton]; done.
Qed.

Section LookupFacts.
Variable TrimSpace : string → string.
Variable Fields : string → list string.
Variable ToLower : string → string.

Lemma parseLine_Some (line name : string) (hubs : list string) :
  parseLine TrimSpace Fields line = Some (name, hubs) →
  name ≠ "" ∧ Forall (λ h, isHub h) hubs.
Proof.
  unfold parseLine. destruct (skipPatterns line); [done|].
  destruct (Contains line ":"); [|done].
  destruct (String.eqb_spec (TrimSpace (nth 0 (SplitN2 line ":") "")) "")
    as [|Hname]; [done|].
  intros [= <- <-]. split; [done|].
  destruct (1 <? length (SplitN2 line ":"))%nat; [|constructor].
  rewrite hubs_loop. apply Forall_forall. by intros h [? _]%list_elem_of_filter.
Qed.

Lemma entriesOf_elem (texts : list string) name hubs :
  (name, hubs) ∈ entriesOf TrimSpace Fields texts →
  name ≠ "" ∧ Forall (λ h, isHub h) hubs.
Proof.
  unfold entriesOf. rewrite list_elem_of_omap.
  intros (text & _ & H). by eapply parseLine_Some.
Qed.

Lemma FindServer_filter (m : Map) (prefix : string) :
  FindServer ToLower m prefix
  = filter (λ name, HasPrefix (ToLower name) (ToLower prefix)) (ServerList m).
Proof.
  unfold FindServer. cbv zeta.
  etrans; [exact (foldl_collect
                    (λ name, HasPrefix (ToLower name) (ToLower prefix))
                    id [] (ServerList m))|].
  by rewrite list_fmap_id.
Qed.

(** X8.  What the parser keeps: in the map loaded from any document, a name
    is in the ordered server list exactly when it has a name-to-uplinks
    entry, no name is empty, and no stored uplink begins with "(" or "=". *)
Theorem loaded_map_is_consistent (texts : list string) :
  (∀ name, name ∈ ServerList (scanLoop TrimSpace Fields texts)
           ↔ is_Some (Servers (scanLoop TrimSpace Fields texts) !! name)) ∧
  ("" ∉ ServerList (scanLoop TrimSpace Fields texts)) ∧
  ∀ name hubs h,
    Servers (scanLoop TrimSpace Fields texts) !! name = Some hubs → h ∈ hubs →
    ¬ beginsWith "(" h ∧ ¬ beginsWith "=" h.
Proof.
  destruct (scanLoop_invariant TrimSpace Fields texts) as (_ & Hlist & Hmap).
  split; [|split].
  - intros name. rewrite Hlist. split.
    + intros (before & hubs & after & E & Hlast)%last_entry_exists.
      exists hubs. apply Hmap. eauto.
    + intros [hubs (before & after & -> & _)%Hmap].
      rewrite fmap_app, elem_of_app. right. by left.
  - rewrite Hlist. intros ([n hubs] & Hn & Hin)%list_elem_of_fmap.
    simpl in Hn. subst n. by destruct (entriesOf_elem _ _ _ Hin).
  - intros name hubs h (before & after & E & _)%Hmap Hh.
    assert ((name, hubs) ∈ entriesOf TrimSpace Fields texts) as Hin.
    { rewrite E, elem_of_app. right. by left. }
    destruct (entriesOf_elem _ _ _ Hin) as [_ Hall].
    apply isHub_spec. by eapply Forall_forall in Hall.
Qed.

(** X9.  Loading then looking up: for every document and every name whose
    last server entry carries the uplinks [hubs], [GetUplinks] of that name
    on the loaded map returns [hubs], whatever the iteration order of the
    map, and [FindServer] of that name lists the name. *)
Theorem load_then_lookup (texts : list string)
    (ρ : RangeOrderOf (list string)) (k : nat)
    (name : string) (hubs : list string)
    (before after : list (string * list string)) :
  entriesOf TrimSpace Fields texts = before ++ (name, hubs) :: after →
  name ∉ after.*1 →
  GetUplinks ToLower ρ k (scanLoop TrimSpace Fields texts) name = hubs ∧
  name ∈ FindServer ToLower (scanLoop TrimSpace Fields texts) name.
Proof.
  intros E Hlast.
  destruct (scanLoop_invariant TrimSpace Fields texts) as (_ & Hlist & Hmap).
  split.
  - unfold GetUplinks.
    assert (Servers (scanLoop TrimSpace Fields texts) !! name = Some hubs) as ->
      by (apply Hmap; eauto).
    done.
  - rewrite FindServer_filter. apply list_elem_of_filter. split.
    + unfold HasPrefix. by rewrite prefix_refl.
    + rewrite Hlist, E, fmap_app, elem_of_app. right. by left.
Qed.

(** X10.  [GetUplinks] of a term that is no key of the map falls back to a
    prefix match: for every fair order of the map's iteration it returns the
    uplinks of some entry whose lower-cased name begins with the lower-cased
    term, or, when the map has no such entry, nothing. *)
Theorem GetUplinks_fallback
    (ρ : RangeOrderOf (list string)) (k : nat) (m : Map) (server : string) :
  fairOf ρ →
  Servers m !! server = None →
  (∃ name, Servers m !! name = Some (GetUplinks ToLower ρ k m server) ∧
           HasPrefix (ToLower name) (ToLower server) = true) ∨
  ((∀ name, is_Some (Servers m !! name) →
            HasPrefix (ToLower name) (ToLower server) = false) ∧
   GetUplinks ToLower ρ k m server = []).
Proof.
  intros Hfair Hnone. unfold GetUplinks. rewrite Hnone. cbv zeta.
  assert (∀ name hubs, (name, hubs) ∈ ρ k (map_to_list (Servers m))
                       ↔ Servers m !! name = Some hubs) as Hin.
  { intros name hubs. by rewrite (Hfair k _), elem_of_map_to_list. }
  revert Hin. generalize (ρ k (map_to_list (Servers m))). intros it.
  induction it as [|[name hubs] it IH]; intros Hin.
  - right. split; [|done]. intros name [hubs H%Hin]. by apply elem_of_nil in H.
  - cbn [firstWithPrefix].
    destruct (HasPrefix (ToLower name) (ToLower server)) eqn:E.
    + left. exists name. split; [|done]. apply Hin. by left.
    + assert (firstWithPrefix ToLower it (ToLower server) = [] ∧
              (∀ n h, (n, h) ∈ it → HasPrefix (ToLower n) (ToLower server) = false)
              ∨ ∃ n, (n, firstWithPrefix ToLower it (ToLower server)) ∈ it
                     ∧ HasPrefix (ToLower n) (ToLower server) = true) as Hrest.
      { clear. induction it as [|[n h] it IH]; [left; split; [done|]|].
        - intros n h H. by apply elem_of_nil in H.
        - cbn [firstWithPrefix].
          destruct (HasPrefix (ToLower n) (ToLower server)) eqn:E.
          + right. exists n. split; [by left|done].
          + destruct IH as [[-> IH]|(n' & Hn' & E')].
            * left. split; [done|].
              intros n0 h0 [[= -> ->]|H]%elem_of_cons; eauto.
            * right. exists n'. split; [by right|done]. }
      destruct Hrest as [[-> Hno]|(n & Hn & En)].
      * right. split; [|done]. intros n [h [[= -> ->]|H]%Hin%elem_of_cons]; eauto.
      * left. exists n. split; [|done]. apply Hin. by right.
Qed.

End LookupFacts.

(** The map of the lookup test: two servers, the term "TEST" is no key. *)
Lemma load_then_lookup_server1 :
  GetUplinks ToLower_ascii (λ _ l, reverse l) 0
    (scanLoop TrimSpace_ascii Fields_ascii
       ["server1: hub1 hub2"; "server2: hub1"; "server1: =x hub9"]) "server1"
  = ["hub9"] ∧
  "server1" ∈ FindServer ToLower_ascii
    (scanLoop TrimSpace_ascii Fields_ascii
       ["server1: hub1 hub2"; "server2: hub1"; "server1: =x hub9"]) "server1".
Proof.
  apply (load_then_lookup TrimSpace_ascii Fields_ascii ToLower_ascii
           ["server1: hub1 hub2"; "server2: hub1"; "server1: =x hub9"]
           (λ _ l, reverse l) 0 "server1" ["hub9"]
           [("server1", ["hub1"; "hub2"]); ("server2", ["hub1"])] []).
  - reflexivity.
  - simpl. apply not_elem_of_nil.
Defined.

Lemma GetUplinks_fallback_test :
  (∃ name,
     Servers (mkMap [] (<["testserver" := ["hub1"; "hub2"]]>
                          (<["other" := ["hub3"]]> ∅)) []) !! name
     = Some (GetUplinks ToLower_ascii (λ _ l, reverse l) 0
               (mkMap [] (<["testserver" := ["hub1"; "hub2"]]>
                            (<["other" := ["hub3"]]> ∅)) []) "TEST") ∧
     HasPrefix (ToLower_ascii name) (ToLower_ascii "TEST") = true) ∨
  ((∀ name,
      is_Some (Servers (mkMap [] (<["testserver" := ["hub1"; "hub2"]]>
                                    (<["other" := ["hub3"]]> ∅)) []) !! name) →
      HasPrefix (ToLower_ascii name) (ToLower_ascii "TEST") = false) ∧
   GetUplinks ToLower_ascii (λ _ l, reverse l) 0
     (mkMap [] (<["testserver" := ["hub1"; "hub2"]]>
                  (<["other" := ["hub3"]]> ∅)) []) "TEST" = []).
Proof.
  apply (GetUplinks_fallback ToLower_ascii (λ _ l, reverse l) 0
           (mkMap [] (<["testserver" := ["hub1"; "hub2"]]>
                        (<["other" := ["hub3"]]> ∅)) []) "TEST").
  - intros n l. apply reverse_Permutation.
  - vm_compute. reflexivity.
Defined.

(** ** storage/files.go: the bounded histories *)

Lemma AddLog_take (logs : list string) (entry : string) :
  Storage.AddLog logs entry = take 500 (entry :: logs).
Proof.
  unfold Storage.AddLog, Storage.maxEntries. cbv zeta.
  change ([entry] ++ logs) with (entry :: logs).
  destruct (Nat.ltb_spec 500 (length (entry :: logs))); [done|].
  by rewrite take_ge.
Qed.

(** X11.  The log history is the newest 500: after any number of [AddLog]
    calls the history is the logged entries, newest first, followed by the
    entries it started from, cut after the first 500; so it never holds more
    than 500 entries however long the history it started from. *)
Theorem AddLog_keeps_newest_500 (logs : list string) (entry : string)
    (entries : list string) :
  foldl Storage.AddLog (Storage.AddLog logs entry) entries
  = take 500 (reverse entries ++ entry :: logs) ∧
  (length (foldl Storage.AddLog (Storage.AddLog logs entry) entries) ≤ 500)%nat.
Proof.
  assert (foldl Storage.AddLog (Storage.AddLog logs entry) entries
          = take 500 (reverse entries ++ entry :: logs)) as E.
  { revert logs entry. induction entries as [|x entries IH]; intros logs entry.
    - apply AddLog_take.
    - cbn [foldl]. rewrite IH, AddLog_take, reverse_cons.
      change (reverse entries ++ x :: take 500 (entry :: logs))
        with (reverse entries ++ [x] ++ take 500 (entry :: logs)).
      rewrite (app_assoc (reverse entries) [x]).
      rewrite !(take_app (reverse entries ++ [x])), take_take.
      do 2 f_equal. lia. }
  rewrite E, length_take. split; [done|lia].
Qed.

Lemma AddStat_shape (stats : list string) (entry : string) :
  last (Storage.AddStat stats entry) = Some entry ∧
  Storage.AddStat stats entry `suffix_of` stats ++ [entry] ∧
  length (Storage.AddStat stats entry)
  = (if decide (500 ≤ length stats)%nat then length stats
     else S (length stats)).
Proof.
  unfold Storage.AddStat, Storage.maxEntries. cbv zeta.
  rewrite length_app. cbn [length].
  destruct (Nat.ltb_spec 500 (length stats + 1)) as [Hlt|Hge].
  - rewrite decide_True by lia. split; [|split].
    + destruct stats as [|x stats]; [simpl in Hlt; lia|].
      rewrite <-app_comm_cons. change (drop 1 (x :: stats ++ [entry]))
        with (stats ++ [entry]). by rewrite last_snoc.
    + apply suffix_drop.
    + rewrite length_drop, length_app. simpl. lia.
  - rewrite decide_False by lia. split; [by rewrite last_snoc|].
    split; [done|]. rewrite length_app. simpl. lia.
Qed.

(** X12.  The stats history is the newest 500: starting from a history of
    at most 500 entries, after any number of [AddStat] calls the history is
    the last 500 of the old entries followed by the new ones, oldest
    first. *)
Theorem AddStat_keeps_newest_500 (stats entries : list string) :
  (length stats ≤ 500)%nat →
  foldl Storage.AddStat stats entries
  = drop (length stats + length entries - 500) (stats ++ entries).
Proof.
  revert stats. induction entries as [|x entries IH]; intros stats Hlen.
  - cbn [foldl length]. rewrite app_nil_r.
    by replace (length stats + 0 - 500)%nat with 0%nat by lia.
  - cbn [foldl length].
    destruct (AddStat_shape stats x) as (_ & _ & Hl).
    assert (Storage.AddStat stats x
            = drop (length stats + 1 - 500) (stats ++ [x])) as E.
    { unfold Storage.AddStat, Storage.maxEntries. cbv zeta.
      rewrite length_app. cbn [length].
      destruct (Nat.ltb_spec 500 (length stats + 1)).
      - by replace (length stats + 1 - 500)%nat with 1%nat by lia.
      - by replace (length stats + 1 - 500)%nat with 0%nat by lia. }
    rewrite IH by (rewrite Hl; destruct (decide (500 ≤ length stats)%nat); lia).
    rewrite Hl, E. destruct (decide (500 ≤ length stats)%nat) as [Hge|Hlt].
    + replace (length stats + 1 - 500)%nat with 1%nat by lia.
      replace (length stats + length entries - 500)%nat
        with (length entries) by lia.
      replace (length stats + S (length entries) - 500)%nat
        with (1 + length entries)%nat by lia.
      rewrite <-drop_drop. f_equal.
      destruct stats as [|y stats]; [simpl in Hge; lia|].
      rewrite <-!app_comm_cons. cbn [drop]. rewrite !drop_0.
      by rewrite <-app_assoc.
    + replace (length stats + 1 - 500)%nat with 0%nat by lia.
      rewrite drop_0, <-app_assoc. cbn [app]. f_equal. lia.
Qed.

Lemma AddStat_keeps_newest_500_three :
  foldl Storage.AddStat ["first"] ["second"; "third"]
  = drop (length ["first"] + length ["second"; "third"] - 500)
         (["first"] ++ ["second"; "third"]).
Proof.
  apply (AddStat_keeps_newest_500 ["first"] ["second"; "third"]).
  simpl. lia.
Defined.

(** ** storage/files.go: the files *)







Lemma read_loop (tokens : list string) :
  foldl (λ lines line, if String.eqb line "" then lines else lines ++ [line])
        [] tokens
  = filter (λ line, line ≠ "") tokens.
Proof.
  etrans; [|etrans; [exact (foldl_collect (λ line, negb (String.eqb line ""))
                               id [] tokens)|]].
  - apply foldl_pointwise. intros lines line. unfold id.
    by destruct (String.eqb line "").
  - rewrite list_fmap_id, app_nil_l. apply list_filter_iff. intros line.
    destruct (String.eqb_spec line ""); naive_solver.
Qed.








Lemma dropCR_keeps_absent (c : ascii) (s : string) :
  hasByte c s = false → hasByte c (GoBufio.dropCR s) = false.
Proof.
  induction s as [|x s IH]; [done|]. cbn [hasByte GoBufio.dropCR].
  intros [Hx Hs]%orb_false_elim. destruct s as [|y s].
  - destruct (Ascii.eqb x "013"); [done|]. simpl. by rewrite Hx.
  - cbn [hasByte]. rewrite Hx. by apply IH.
Qed.

Lemma scanFrom_no_newline (data : string) :
  ∀ cur n, hasByte "010" cur = false →
    Forall (λ token, hasByte "010" token = false)
           (GoBufio.scanFrom data cur n).1.
Proof.
  induction data as [|c data IH]; intros cur n Hcur; cbn [GoBufio.scanFrom].
  - destruct (n =? 0); [constructor|].
    repeat constructor. by apply dropCR_keeps_absent.
  - destruct (Ascii.eqb c "010") eqn:Hc.
    + specialize (IH "" 0 eq_refl).
      destruct (GoBufio.scanFrom data "" 0) as [tokens tooLong].
      constructor; [by apply dropCR_keeps_absent|done].
    + destruct (_ <=? n); [constructor|]. apply IH.
      rewrite hasByte_app, Hcur. simpl. by rewrite Hc.
Qed.

(** X15.  [readLines] never returns an empty line nor a line with a newline
    in it, whatever the file holds: blank lines are skipped. *)
Theorem readLines_lines_are_clean (file : Storage.fileState) :
  Forall (λ line, line ≠ "" ∧ hasByte "010" line = false)
         (Storage.readLines file).1.
Proof.
  destruct file as [| |content]; [constructor..|].
  unfold Storage.readLines, GoBufio.scan.
  pose proof (scanFrom_no_newline content "" 0 eq_refl) as H.
  destruct (GoBufio.scanFrom content "" 0) as [tokens tooLong].
  cbn [fst] in *. rewrite read_loop. apply Forall_forall.
  intros line [Hne Hin]%list_elem_of_filter. split; [done|].
  by eapply Forall_forall in H.
Qed.

(** ** storage/files.go: the message of the day *)

Lemma prefix_app (p rest : string) : String.prefix p (p +:+ rest) = true.
Proof.
  induction p as [|c p IH]; [by destruct rest|].
  change (String c p +:+ rest) with (String c (p +:+ rest)).
  cbn [String.prefix]. by destruct (ascii_dec c c).
Qed.

Lemma index_percent (setter message : string) :
  ∀ i j, 0 ≤ j →
    index_from j (setter +:+ "%") "%%" = -1 →
    index_from i (setter +:+ "%%" +:+ message) "%%"
    = i + Z.of_nat (String.length setter).
Proof.
  induction setter as [|c setter IH]; intros i j Hj Hno.
  - change ("" +:+ "%%" +:+ message) with ("%%" +:+ message).
    destruct message; simpl; lia.
  - change (String c setter +:+ "%%" +:+ message)
      with (String c (setter +:+ "%%" +:+ message)).
    change (String c setter +:+ "%") with (String c (setter +:+ "%")) in Hno.
    cbn [index_from] in Hno |- *.
    destruct (String.prefix "%%" (String c (setter +:+ "%"))) eqn:Hp; [lia|].
    assert (String.prefix "%%" (String c (setter +:+ "%%" +:+ message)) = false)
      as ->.
    { cbn [String.prefix] in Hp |- *.
      destruct (ascii_dec "%" c) as [_|_]; [|done].
      destruct setter as [|d setter].
      - simpl in Hp. by destruct (ascii_dec "%" "%").
      - change (String d setter +:+ "%") with (String d (setter +:+ "%")) in Hp.
        change (String d setter +:+ "%%" +:+ message)
          with (String d (setter +:+ "%%" +:+ message)).
        cbn [String.prefix] in Hp |- *.
        destruct (ascii_dec "%" d); [|done].
        by destruct (setter +:+ "%"). }
    rewrite (IH (i + 1) (j + 1)) by (try done; lia).
    cbn [String.length]. lia.
Qed.

Lemma slice_to_app (a b : string) : slice_to (String.length a) (a +:+ b) = a.
Proof.
  unfold slice_to. induction a as [|c a IH]; [by destruct b|].
  change (String c a +:+ b) with (String c (a +:+ b)). simpl. by rewrite IH.
Qed.

Lemma slice_from_app (a b : string) : slice_from (String.length a) (a +:+ b) = b.
Proof.
  induction a as [|c a IH]; [done|].
  change (String c a +:+ b) with (String c (a +:+ b)). simpl. by rewrite IH.
Qed.

(** X16.  The message of the day survives a save and a load when the setter,
    followed by a percent sign, contains no "%%" and trimming the written
    text removes just its final newline (the setter has no leading and the
    message no trailing white space): [LoadMOTD] then returns the setter and
    the message that [SaveMOTD] wrote. *)
Theorem motd_round_trip (TrimSpace : string → string) (motd : Storage.MOTD) :
  Index (Storage.Setter motd +:+ "%") "%%" = -1 →
  TrimSpace (Storage.Setter motd +:+ "%%" +:+ Storage.Message motd
             +:+ String "010" "")
  = Storage.Setter motd +:+ "%%" +:+ Storage.Message motd →
  ∃ content,
    Storage.SaveMOTD true motd = (Some content, false) ∧
    Storage.LoadMOTD TrimSpace (Storage.Holds content) = (Some motd, None).
Proof.
  destruct motd as [setter message]. cbn [Storage.Setter Storage.Message].
  intros Hno Htrim. eexists. split; [reflexivity|].
  unfold Storage.LoadMOTD. cbn [Storage.Setter Storage.Message].
  rewrite Htrim. unfold SplitN2, Index.
  rewrite (index_percent setter message 0 0) by (try done; lia).
  destruct (Z.ltb_spec (0 + Z.of_nat (String.length setter)) 0) as [?|_]; [lia|].
  cbn [length Nat.eqb negb nth]. rewrite Z.add_0_l, Nat2Z.id.
  rewrite slice_to_app.
  replace (String.length setter + String.length "%%")%nat
    with (String.length (setter +:+ "%%")) by apply length_app_string.
  by rewrite <-app_string_assoc, slice_from_app.
Qed.

Lemma motd_round_trip_test :
  ∃ content,
    Storage.SaveMOTD true
      (Storage.mkMOTD "testuser on Thu Feb 20, 2025"
                      "This is the message of the day")
    = (Some content, false) ∧
    Storage.LoadMOTD TrimSpace_ascii (Storage.Holds content)
    = (Some (Storage.mkMOTD "testuser on Thu Feb 20, 2025"
                            "This is the message of the day"), None).
Proof.
  apply (motd_round_trip TrimSpace_ascii
           (Storage.mkMOTD "testuser on Thu Feb 20, 2025"
                           "This is the message of the day")).
  - vm_compute. reflexivity.
  - vm_compute. reflexivity.
Defined.

(** ** The IRC client: the LINKS query *)

Section HandlerFacts.
Variable TrimSpace : string → string.
Variable Fields : string → list string.
Variable ToLower : string → string.

Lemma cmdLinks_opens (w : Irc.World) (c : Irc.Client)
    (nick hostmask message : string) (summary : bool) :
  Irc.linksTree (Irc.cmdLinks TrimSpace Fields w c nick hostmask message summary).1
  = Some NewLinkTree ∧
  Irc.linksTarget (Irc.cmdLinks TrimSpace Fields w c nick hostmask message summary).1
  = nick ∧
  Irc.linksSummary (Irc.cmdLinks TrimSpace Fields w c nick hostmask message summary).1
  = summary.
Proof.
  unfold Irc.cmdLinks. destruct (Irc.logCommand w c hostmask message). done.
Qed.

Lemma onLinks_feeds (msgs : list Irc.Message) :
  ∀ c tree,
    Irc.linksTree c = Some tree →
    Irc.linksTree (foldl Irc.onLinks c msgs)
    = Some (foldl AddReply tree (omap replyOf msgs)) ∧
    Irc.linksTarget (foldl Irc.onLinks c msgs) = Irc.linksTarget c ∧
    Irc.linksSummary (foldl Irc.onLinks c msgs) = Irc.linksSummary c.
Proof.
  induction msgs as [|e msgs IH]; intros c tree Htree; [done|].
  cbn [foldl omap list_omap]. unfold Irc.onLinks at 2 4 6, replyOf at 1.
  destruct (length (Irc.Params e) <? 4)%nat; [by apply IH|].
  rewrite Htree. cbv zeta.
  set (tree' := Add tree _ _ _ _).
  destruct (IH (Irc.setLinks c (Some tree') (Irc.linksTarget c)
                  (Irc.linksSummary c)) tree' eq_refl) as (H1 & H2 & H3).
  rewrite H1, H2, H3. done.
Qed.

(** X17.  A query supersedes the one before it: when a second [cmdLinks]
    arrives before the end of the first query, the tree that is open after
    the replies that follow holds the records of those replies only, and the
    answer will go to the second requester in the second requester's mode;
    the records collected for the first query are gone. *)
Theorem second_query_supersedes_first
    (w1 w2 : Irc.World) (c : Irc.Client)
    (nick1 hostmask1 message1 nick2 hostmask2 message2 : string)
    (summary1 summary2 : bool) (msgs1 msgs2 : list Irc.Message) :
  Irc.linksTree
    (foldl Irc.onLinks
       (Irc.cmdLinks TrimSpace Fields w2
          (foldl Irc.onLinks
             (Irc.cmdLinks TrimSpace Fields w1 c
                nick1 hostmask1 message1 summary1).1 msgs1)
          nick2 hostmask2 message2 summary2).1 msgs2)
  = Some (collect (omap replyOf msgs2)) ∧
  Irc.linksTarget
    (foldl Irc.onLinks
       (Irc.cmdLinks TrimSpace Fields w2
          (foldl Irc.onLinks
             (Irc.cmdLinks TrimSpace Fields w1 c
                nick1 hostmask1 message1 summary1).1 msgs1)
          nick2 hostmask2 message2 summary2).1 msgs2)
  = nick2 ∧
  Irc.linksSummary
    (foldl Irc.onLinks
       (Irc.cmdLinks TrimSpace Fields w2
          (foldl Irc.onLinks
             (Irc.cmdLinks TrimSpace Fields w1 c
                nick1 hostmask1 message1 summary1).1 msgs1)
          nick2 hostmask2 message2 summary2).1 msgs2)
  = summary2.
Proof.
  set (c2 := foldl Irc.onLinks _ msgs1).
  destruct (cmdLinks_opens w2 c2 nick2 hostmask2 message2 summary2)
    as (Ht & Hn & Hs).
  destruct (onLinks_feeds msgs2 _ _ Ht) as (H1 & H2 & H3).
  by rewrite H1, H2, H3, Hn, Hs.
Qed.

(** X18.  The end of a query discards it: whenever [onLinksEnd] returns, no
    query is open any more (no tree, no target, no summary flag, the other
    fields untouched), so a further end-of-links message sends nothing and
    link replies that arrive afterwards are dropped. *)
Theorem end_of_links_closes_the_query
    (fuel : nat) (ρ : RangeOrder) (kb kc : nat)
    (c c' : Irc.Client) (e : Irc.Message) (sent : list Irc.action) :
  Irc.onLinksEnd ToLower fuel ρ kb kc c e = Returns (c', sent) →
  c' = Irc.setLinks c None "" false ∧
  (∀ fuel' ρ' kb' kc' e',
     Irc.onLinksEnd ToLower fuel' ρ' kb' kc' c' e' = Returns (c', [])) ∧
  (∀ msgs, foldl Irc.onLinks c' msgs = c').
Proof.
  intros H. assert (c' = Irc.setLinks c None "" false) as ->.
  { unfold Irc.onLinksEnd in H. cbv zeta in H.
    destruct (Irc.linksTree c); [|by injection H].
    destruct (String.eqb _ ""); [by injection H|].
    destruct (Irc.linksSummary c); [by injection H|].
    destruct (Build _ _ _ _); [by injection H|done..]. }
  split; [done|]. split; [done|].
  intros msgs. induction msgs as [|m msgs IH]; [done|].
  cbn [foldl]. unfold Irc.onLinks at 2.
  by destruct (length (Irc.Params m) <? 4)%nat.
Qed.

(** X19.  A summary never walks the tree: with a query open in summary mode
    [onLinksEnd] returns for every recursion budget, hub cycles or not, and
    sends the requester the two counts, the missing line, a blank line and
    the two lines of the message of the day, six messages in all. *)
Theorem summary_skips_the_tree
    (ρ : RangeOrder) (kc : nat) (c : Irc.Client) (e : Irc.Message)
    (tree : LinkTree) :
  Irc.linksTree c = Some tree →
  Irc.linksTarget c ≠ "" →
  Irc.linksSummary c = true →
  ∃ missingLine,
    ∀ fuel kb,
      Irc.onLinksEnd ToLower fuel ρ kb kc c e
      = Returns
          (Irc.setLinks c None "" false,
           Irc.Privmsg (Irc.linksTarget c) <$>
             ["Total servers: " +:+ pretty (length (ServerList (Irc.routingMap c)));
              "Linked servers: "
                +:+ pretty (length (GetLinkedServers ρ kc tree));
              missingLine; " ";
              "[MOTD] " +:+ Storage.Message (Irc.motd c);
              "MOTD set by " +:+ Storage.Setter (Irc.motd c)]).
Proof.
  intros Htree Htarget Hsummary.
  destruct (CompareToMap ToLower ρ kc tree (Irc.routingMap c))
    as [[total linked] missing] eqn:Hcmp.
  exists (if (0 <? length missing)%nat
          then "Missing servers: " +:+ Join missing ", " +:+ " ("
               +:+ pretty (length missing) +:+ ")"
          else "No servers are currently missing").
  intros fuel kb. unfold Irc.onLinksEnd. cbv zeta.
  rewrite Htree, Hsummary. apply String.eqb_neq in Htarget. rewrite Htarget.
  cbn [Irc.routingMap Irc.setLinks Irc.motd]. rewrite Hcmp.
  unfold CompareToMap in Hcmp. cbv zeta in Hcmp. injection Hcmp as <- <- _.
  by destruct (0 <? length missing)%nat.
Qed.


Lemma onLinks_keeps_rest (msgs : list Irc.Message) (c : Irc.Client) :
  Irc.routingMap (foldl Irc.onLinks c msgs) = Irc.routingMap c ∧
  Irc.motd (foldl Irc.onLinks c msgs) = Irc.motd c.
Proof.
  revert c. induction msgs as [|m msgs IH]; intros c; [done|].
  cbn [foldl]. destruct (IH (Irc.onLinks c m)) as [-> ->].
  unfold Irc.onLinks. destruct (length (Irc.Params m) <? 4)%nat; [done|].
  cbv zeta. by destruct (Irc.linksTree c).
Qed.

Lemma cmdLinks_reloads (w : Irc.World) (c : Irc.Client)
    (nick hostmask message : string) (summary : bool) (texts : list string) :
  Irc.rmapTxt w = Opens texts false →
  Irc.routingMap
    (Irc.cmdLinks TrimSpace Fields w c nick hostmask message summary).1
  = scanLoop TrimSpace Fields texts ∧
  Irc.motd (Irc.cmdLinks TrimSpace Fields w c nick hostmask message summary).1
  = Irc.motd c.
Proof.
  intros Hw. unfold Irc.cmdLinks, Irc.logCommand, Irc.reloadMap. cbv zeta.
  destruct (Storage.SaveStats _ _) as [[content|] failed];
    rewrite Hw; done.
Qed.

(** X21.  A summary query end to end: [cmdLinks] in summary mode, then the
    link replies, then the end of the list.  The requester is sent the
    number of server entries of the routing-map file as it was read when the
    query was made, the number of distinct servers among the replies, the
    catalog names that no reply accounts for, and the message of the day; the
    query is closed and the client keeps the map just read.  This holds for
    every iteration order of the maps and every recursion budget. *)
Theorem summary_query_reports_current_file
    (ρ : RangeOrder) (kc : nat) (w : Irc.World) (c : Irc.Client)
    (nick hostmask message : string) (msgs : list Irc.Message)
    (e : Irc.Message) (texts : list string) :
  fair ρ →
  nick ≠ "" →
  Irc.rmapTxt w = Opens texts false →
  ∃ c',
    Irc.linksTree c' = None ∧
    Irc.routingMap c' = scanLoop TrimSpace Fields texts ∧
    ∀ fuel kb,
      Irc.onLinksEnd ToLower fuel ρ kb kc
        (foldl Irc.onLinks
           (Irc.cmdLinks TrimSpace Fields w c nick hostmask message true).1
           msgs) e
      = Returns
          (c',
           Irc.Privmsg nick <$>
             ["Total servers: "
                +:+ pretty (length (entriesOf TrimSpace Fields texts));
              "Linked servers: "
                +:+ pretty (size (entries (collect (omap replyOf msgs))));
              missingReport
                (missingOf ToLower (r_server <$> omap replyOf msgs)
                   (entriesOf TrimSpace Fields texts).*1);
              " ";
              "[MOTD] " +:+ Storage.Message (Irc.motd c);
              "MOTD set by " +:+ Storage.Setter (Irc.motd c)]).
Proof.
  intros Hfair Hnick Hw.
  set (c1 := (Irc.cmdLinks TrimSpace Fields w c nick hostmask message true).1).
  destruct (cmdLinks_opens w c nick hostmask message true) as (Ht & Hn & Hs).
  destruct (cmdLinks_reloads w c nick hostmask message true texts Hw)
    as (Hmap & Hmotd).
  fold c1 in Ht, Hn, Hs, Hmap, Hmotd.
  destruct (onLinks_feeds msgs c1 _ Ht) as (H1 & H2 & H3).
  destruct (onLinks_keeps_rest msgs c1) as (H4 & H5).
  fold (collect (omap replyOf msgs)) in H1.
  set (c2 := foldl Irc.onLinks c1 msgs) in *.
  exists (Irc.setLinks c2 None "" false).
  split; [done|]. split; [cbn [Irc.routingMap Irc.setLinks]; congruence|].
  intros fuel kb. unfold Irc.onLinksEnd. cbv zeta.
  rewrite H1, H2, H3, Hn, Hs. apply String.eqb_neq in Hnick. rewrite Hnick.
  cbn [Irc.routingMap Irc.setLinks Irc.motd]. rewrite H4, H5, Hmap, Hmotd.
  rewrite (CompareToMap_missingOf ToLower ρ kc _ _ Hfair).
  destruct (scanLoop_invariant TrimSpace Fields texts) as (_ & -> & _).
  rewrite length_fmap.
  rewrite (missingOf_same_names ToLower _ (r_server <$> omap replyOf msgs))
    by apply elem_of_collect_names.
  unfold missingReport.
  by destruct (0 <? length _)%nat.
Qed.

End HandlerFacts.

Lemma shortName_idempotent_hub :
  shortName (shortName "hub.example.net") = shortName "hub.example.net" ∧
  Index (shortName "hub.example.net") "." = -1.
Proof.
  destruct (shortName_idempotent "hub.example.net") as [H1 H2].
  split; [exact H1|]. apply H2. reflexivity.
Defined.

Lemma loaded_map_is_consistent_server1 :
  "server1" ∈ ServerList
    (scanLoop TrimSpace_ascii Fields_ascii
       ["server1: hub1 hub2"; "server2: hub1"; "server1: =x hub9"]) ∧
  ¬ beginsWith "(" "hub9" ∧ ¬ beginsWith "=" "hub9".
Proof.
  destruct (loaded_map_is_consistent TrimSpace_ascii Fields_ascii
              ["server1: hub1 hub2"; "server2: hub1"; "server1: =x hub9"])
    as (H1 & _ & H3).
  split.
  - apply H1. compute_done.
  - apply (H3 "server1" ["hub9"] "hub9"); compute_done.
Defined.

Lemma end_of_links_closes_the_query_four_servers :
  idleClient
  = Irc.setLinks (Irc.setLinks idleClient (Some (collect fourServers)) "oper" true)
                 None "" false ∧
  (∀ fuel' ρ' kb' kc' e',
     Irc.onLinksEnd ToLower_ascii fuel' ρ' kb' kc' idleClient e'
     = Returns (idleClient, [])) ∧
  (∀ msgs, foldl Irc.onLinks idleClient msgs = idleClient).
Proof.
  apply (end_of_links_closes_the_query ToLower_ascii 0 inOrder 0 0
           (Irc.setLinks idleClient (Some (collect fourServers)) "oper" true)
           idleClient (Irc.mkMessage "irc.example.net" [])
           (Irc.Privmsg "oper" <$>
              ["Total servers: 0"; "Linked servers: 4";
               "No servers are currently missing"; " ";
               "[MOTD] "; "MOTD set by "])).
  vm_compute. reflexivity.
Defined.

Lemma summary_skips_the_tree_two_cycle :
  ∃ missingLine,
    ∀ fuel kb,
      Irc.onLinksEnd ToLower_ascii fuel inOrder kb 0
        (Irc.setLinks idleClient (Some (collect twoCycle)) "oper" true)
        (Irc.mkMessage "irc.example.net" [])
      = Returns
          (idleClient,
           Irc.Privmsg "oper" <$>
             ["Total servers: 0"; "Linked servers: 2"; missingLine; " ";
              "[MOTD] "; "MOTD set by "]).
Proof.
  apply (summary_skips_the_tree ToLower_ascii inOrder 0
           (Irc.setLinks idleClient (Some (collect twoCycle)) "oper" true)
           (Irc.mkMessage "irc.example.net" []) (collect twoCycle)).
  - reflexivity.
  - discriminate.
  - reflexivity.
Defined.


Lemma summary_query_reports_current_file_two_servers :
  ∃ c',
    Irc.linksTree c' = None ∧
    Irc.routingMap c'
    = scanLoop TrimSpace_ascii Fields_ascii ["hub.net: a"; "z.net: hub"] ∧
    ∀ fuel kb,
      Irc.onLinksEnd ToLower_ascii fuel inOrder kb 0
        (foldl Irc.onLinks
           (Irc.cmdLinks TrimSpace_ascii Fields_ascii
              (Irc.mkWorld "Thu Feb 20"
                 (Opens ["hub.net: a"; "z.net: hub"] false) true)
              idleClient "oper" "oper!user@host" "!links" true).1
           [Irc.mkMessage "irc.example.net"
              ["me"; "hub.net"; "hub.net"; "0 Hub"]])
        (Irc.mkMessage "irc.example.net" ["me"; "*"; "End of /LINKS list"])
      = Returns
          (c',
           Irc.Privmsg "oper" <$>
             ["Total servers: "
                +:+ pretty (length (entriesOf TrimSpace_ascii Fields_ascii
                                      ["hub.net: a"; "z.net: hub"]));
              "Linked servers: "
                +:+ pretty (size (entries (collect (omap replyOf
                      [Irc.mkMessage "irc.example.net"
                         ["me"; "hub.net"; "hub.net"; "0 Hub"]]))));
              missingReport
                (missingOf ToLower_ascii
                   (r_server <$> omap replyOf
                      [Irc.mkMessage "irc.example.net"
                         ["me"; "hub.net"; "hub.net"; "0 Hub"]])
                   (entriesOf TrimSpace_ascii Fields_ascii
                      ["hub.net: a"; "z.net: hub"]).*1);
              " ";
              "[MOTD] " +:+ Storage.Message (Irc.motd idleClient);
              "MOTD set by " +:+ Storage.Setter (Irc.motd idleClient)]).
Proof.
  apply (summary_query_reports_current_file
           TrimSpace_ascii Fields_ascii ToLower_ascii inOrder 0
           (Irc.mkWorld "Thu Feb 20"
              (Opens ["hub.net: a"; "z.net: hub"] false) true)
           idleClient "oper" "oper!user@host" "!links"
           [Irc.mkMessage "irc.example.net"
              ["me"; "hub.net"; "hub.net"; "0 Hub"]]
           (Irc.mkMessage "irc.example.net" ["me"; "*"; "End of /LINKS list"])
           ["hub.net: a"; "z.net: hub"]).
  - apply fair_inOrder.
  - discriminate.
  - reflexivity.
Defined.
